(** * yad2-new-ads-scraper: a shallow embedding of [src/index.ts]

    The pipeline of the scraper (fetch with retries, extraction of the ad
    records, detection of new ads against the persisted seen-set, Telegram
    notification) is embedded as functions in a state-and-exception monad
    over an explicit world: the file system, the wall clock and the network.

    A JavaScript string is modelled by its UTF-8 encoding, a byte string. *)

From Stdlib Require Import QArith Ascii.
From stdpp Require Import base option list strings pretty gmap sets.

#[local] Set Warnings "-clear-no-such-hyp".

Local Open Scope string_scope.
Local Open Scope Z_scope.
Local Open Scope list_scope.

(** ** The world the program runs in *)

(** What a call of node-fetch's [fetch] gives back: the promise rejects
    (network error), or it resolves to a response. *)
Inductive HttpResult :=
| NetworkError (message : string)
| Response (ok : bool) (status : Z) (statusText : string) (body : string).

(** The body of a Telegram request ([JSON.stringify(payload)]). *)
Inductive Payload :=
| TextPayload (chat_id text : string)
| PhotoPayload (chat_id photo caption : string).

(** The effects the program performs, in the order it performs them. *)
Inductive Event :=
| EvGet (url : string)
| EvPost (url : string) (payload : Payload)
| EvSleep (ms : Q)
| EvMkdir (path : string)
| EvWrite (path data : string).

(** The environment answers the program's questions: [clock k] is the value
    of the [k]-th call of [Date.now()] (milliseconds), [net k] the outcome of
    the [k]-th call of [fetch]. *)
Record Env := {
  clock : nat → Z;
  net : nat → HttpResult;
}.

(** [files] gives, for the path strings the program uses, the text of the
    file: what [readFile(path, "utf-8")] returns (the content decoded as
    UTF-8; for a file that is valid UTF-8, the content itself) and what
    [writeFile(path, text)] leaves. A path is the string as the program
    builds it: two strings that name one file are two keys, so nothing here
    relates the files of two topics. A path in [files] is a regular file the
    process may read. [diskFaults] is what the system will answer to the
    coming operations that change the disk ([mkdir], [writeFile]), the next
    one first: [None] accepts the operation, [Some message] rejects it with
    that error and the disk stays as it was (the errors of opening the file:
    a missing directory, no permission, a read-only file system); once the
    list is used up, operations are accepted. *)
Record World := {
  files : gmap string string;   (* path -> text *)
  clockReads : nat;             (* calls of Date.now() so far *)
  requests : nat;               (* calls of fetch so far *)
  trace : list Event;           (* effects so far, oldest first *)
  diskFaults : list (option string);
}.

Definition emit (e : Event) (w : World) : World :=
  {| files := files w; clockReads := clockReads w; requests := requests w;
     trace := trace w ++ [e]; diskFaults := diskFaults w |}.

(** ** The monad: state passing over [World], exceptions as [inl message]

    Every exception of the source is [new Error(message)]; an exception is
    modelled by its message. *)
Definition M (A : Type) : Type := World → (string + A) * World.

Definition ret {A} (a : A) : M A := λ w, (inr a, w).
Definition throw {A} (message : string) : M A := λ w, (inl message, w).
Definition bind {A B} (m : M A) (k : A → M B) : M B :=
  λ w, match m w with
       | (inr a, w') => k a w'
       | (inl e, w') => (inl e, w')
       end.
Definition tryCatch {A} (body : M A) (handler : string → M A) : M A :=
  λ w, match body w with
       | (inr a, w') => (inr a, w')
       | (inl e, w') => handler e w'
       end.

Notation "'let!' x := c1 'in' c2" := (bind c1 (λ x, c2))
  (at level 10, x name, c1 at level 100, c2 at level 200).
Notation "'do!' c1 'in' c2" := (bind c1 (λ _, c2))
  (at level 10, c1 at level 100, c2 at level 200).

(** [Date.now()] *)
Definition Date_now (env : Env) : M Z :=
  λ w, (inr (clock env (clockReads w)),
        {| files := files w; clockReads := S (clockReads w);
           requests := requests w; trace := trace w; diskFaults := diskFaults w |}).

(** [await fetch(url, options)]: the request goes out, the environment
    answers; a network error rejects the promise. *)
Definition http (env : Env) (request : Event) : M HttpResult :=
  λ w, let w' := {| files := files w; clockReads := clockReads w;
                    requests := S (requests w); trace := trace w ++ [request];
                    diskFaults := diskFaults w |} in
       match net env (requests w) with
       | NetworkError message => (inl message, w')
       | r => (inr r, w')
       end.

(** [await new Promise((resolve) => setTimeout(resolve, delay))] *)
Definition sleep (ms : Q) : M unit := λ w, (inr tt, emit (EvSleep ms) w).

(** The answer of the system to the next operation that changes the disk:
    the error, if it rejects the operation. *)
Definition nextFault (w : World) : option string :=
  match diskFaults w with
  | Some message :: _ => Some message
  | _ => None
  end.

(** The world once that answer has been given. *)
Definition popFault (w : World) : World :=
  {| files := files w; clockReads := clockReads w; requests := requests w;
     trace := trace w; diskFaults := tail (diskFaults w) |}.

(** [fs.existsSync(path)] *)
Definition existsSync (path : string) : M bool :=
  λ w, (inr (bool_decide (is_Some (files w !! path))), w).

(** [await readFile(path, "utf-8")]: the text of the file. The program
    reads a path only after [existsSync] has found it. *)
Definition readFile (path : string) : M string :=
  λ w, match files w !! path with
       | Some data => (inr data, w)
       | None => (inl ("ENOENT: no such file or directory, open '" +:+ path +:+ "'"), w)
       end.

(** [await writeFile(path, data)]: the promise rejects when the system
    rejects the write; otherwise the file has the text [data]. *)
Definition writeFile (path data : string) : M unit :=
  λ w, match nextFault w with
       | Some message => (inl message, popFault w)
       | None =>
           (inr tt,
            {| files := <[path := data]> (files w); clockReads := clockReads w;
               requests := requests w; trace := trace w ++ [EvWrite path data];
               diskFaults := tail (diskFaults w) |})
       end.

(** [await mkdir(path, { recursive: true })] *)
Definition mkdir (path : string) : M unit :=
  λ w, match nextFault w with
       | Some message => (inl message, popFault w)
       | None => (inr tt, emit (EvMkdir path) (popFault w))
       end.

(** ** Resilient fetcher: [getYad2Response] *)

(** [const backoffDelay = (attempt) => Math.pow(2, attempt) * 1000], in
    double precision: [Math.pow(2, attempt)] is exact down to the smallest
    subnormal, [2 ^ -1074], and is 0 below it; the product with 1000 is then
    exact too. The loop calls it with [attempt <= 2] only. *)
Definition backoffDelay (attempt : Z) : Q :=
  if attempt <? -1074 then 0%Q else (Qpower (2 # 1) attempt * (1000 # 1))%Q.

(** One pass through the [try] block: the timeout check, the request, the
    status check. *)
Definition attemptFetch (env : Env) (url : string) (startTime maxTimeout : Z) : M string :=
  let! now := Date_now env in
  if now - startTime >? maxTimeout
  then throw "Maximum timeout reached while trying to fetch URL"
  else
    let! res := http env (EvGet url) in
    match res with
    | Response true _ _ body => ret body
    | Response false status statusText _ =>
        throw ("Failed to fetch Yad2: " +:+ pretty status +:+ " " +:+ statusText)
    | NetworkError message => throw message
    end.

(** The [while (retries > 0)] loop. [retries] counts down by one on every
    failed pass, so the loop is a recursion on it; [O] is the loop's exit. *)
Fixpoint fetchLoop (env : Env) (url : string) (startTime maxTimeout : Z)
    (retries : nat) : M string :=
  match retries with
  | O => throw "Failed to fetch Yad2 response"
  | S retries' =>
      tryCatch (attemptFetch env url startTime maxTimeout)
        (λ _,
          (* retries -= 1 *)
          match retries' with
          | O => throw "Network error occurred after multiple retries"
          | S _ =>
              do! sleep (backoffDelay (3 - Z.of_nat retries')) in
              fetchLoop env url startTime maxTimeout retries'
          end)
  end.

(** [getYad2Response(url, retries = 3, maxTimeout = 10000)]. A [retries]
    that is not positive skips the loop, like [retries = 0]. *)
Definition getYad2Response (env : Env) (url : string) (retries maxTimeout : Z) : M string :=
  let! startTime := Date_now env in
  fetchLoop env url startTime maxTimeout (Z.to_nat retries).

Definition defaultRetries : Z := 3.
Definition defaultMaxTimeout : Z := 10000.

(** ** JavaScript strings *)

Definition bytes (codes : list nat) : string :=
  String.string_of_list_ascii (map Ascii.ascii_of_nat codes).

(** A string is falsy exactly when it is empty. *)
Definition truthy (s : string) : bool :=
  match s with EmptyString => false | String _ _ => true end.

(** [x || d] for [x : string | undefined]. *)
Definition js_or (x : option string) (d : string) : string :=
  match x with
  | Some s => if truthy s then s else d
  | None => d
  end.

(** The code points [String.prototype.trim] strips (WhiteSpace and
    LineTerminator of ECMAScript), in UTF-8. *)
Definition whiteSpace : list string :=
  map bytes
    (app [[9]; [10]; [11]; [12]; [13]; [32]; [194; 160]; [225; 154; 128]]
      (app (map (λ b, [226; 128; b]) (seq 128 11))
         [[226; 128; 168]; [226; 128; 169]; [226; 128; 175]; [226; 129; 159];
          [227; 128; 128]; [239; 187; 191]]))%nat.

Fixpoint stripPrefix (p s : string) : option string :=
  match p, s with
  | EmptyString, _ => Some s
  | String a p', String b s' => if Ascii.eqb a b then stripPrefix p' s' else None
  | String _ _, EmptyString => None
  end.

Fixpoint stripAny (ps : list string) (s : string) : option string :=
  match ps with
  | [] => None
  | p :: ps' => match stripPrefix p s with
                | Some s' => Some s'
                | None => stripAny ps' s
                end
  end.

Fixpoint dropWhile_ws (ws : list string) (fuel : nat) (s : string) : string :=
  match fuel with
  | O => s
  | S fuel' => match stripAny ws s with
               | Some s' => dropWhile_ws ws fuel' s'
               | None => s
               end
  end.

Definition trimStart (s : string) : string :=
  dropWhile_ws whiteSpace (String.length s) s.

Definition trimEnd (s : string) : string :=
  String.rev (dropWhile_ws (map String.rev whiteSpace) (String.length s) (String.rev s)).

Definition trim (s : string) : string := trimEnd (trimStart s).

(** [haystack.includes(needle)] *)
Fixpoint includes (haystack needle : string) : bool :=
  if String.prefix needle haystack then true
  else match haystack with
       | EmptyString => false
       | String _ rest => includes rest needle
       end.

(** ** The document, as cheerio sees it *)

#[warnings="-register-all"] Inductive Node :=
| Text (data : string)
| Elem (name : string) (attribs : list (string * string)) (children : list Node).

Definition Document : Type := list Node.

(** The selectors the scraper uses: an optional tag name and an optional
    attribute test, [[name='value']] or [[name^=value]]. *)
Inductive AttrTest :=
| AttrEquals (name value : string)
| AttrStartsWith (name value : string).

Record Selector := { selName : option string; selAttr : option AttrTest }.

Fixpoint getAttribute (attribs : list (string * string)) (name : string) : option string :=
  match attribs with
  | [] => None
  | (k, v) :: rest => if String.eqb k name then Some v else getAttribute rest name
  end.

Definition testAttr (t : AttrTest) (attribs : list (string * string)) : bool :=
  match t with
  | AttrEquals name value =>
      match getAttribute attribs name with
      | Some v => String.eqb v value
      | None => false
      end
  | AttrStartsWith name value =>
      match getAttribute attribs name with
      | Some v => truthy value && String.prefix value v
      | None => false
      end
  end.

Definition matches (sel : Selector) (n : Node) : bool :=
  match n with
  | Text _ => false
  | Elem name attribs _ =>
      match selName sel with Some t => String.eqb t name | None => true end
      && match selAttr sel with Some t => testAttr t attribs | None => true end
  end.

(** The nodes below [n], in document order. *)
Fixpoint descendants (n : Node) : list Node :=
  match n with
  | Text _ => []
  | Elem _ _ children => flat_map (λ c, c :: descendants c) children
  end.

(** [$(selector)] *)
Definition select (doc : Document) (sel : Selector) : list Node :=
  filter (λ n, matches sel n = true) (flat_map (λ c, c :: descendants c) doc).

(** [$(elm).find(selector)] *)
Definition find (elm : Node) (sel : Selector) : list Node :=
  filter (λ n, matches sel n = true) (descendants elm).

Fixpoint textContent (n : Node) : string :=
  match n with
  | Text data => data
  | Elem _ _ children => String.concat "" (map textContent children)
  end.

(** Methods of a cheerio selection (a list of nodes in document order). *)
Definition first (s : list Node) : list Node := take 1 s.
Definition eq_ (i : nat) (s : list Node) : list Node := take 1 (drop i s).
Definition text (s : list Node) : string := String.concat "" (map textContent s).
Definition attr (s : list Node) (name : string) : option string :=
  match s with
  | Elem _ attribs _ :: _ => getAttribute attribs name
  | _ => None
  end.

(** ** Listing extractor *)

Record AdRecord := {
  fullLink : string;
  imageUrl : string;
  address : string;
  description : string;
  structure : string;
  price : string;
}.

Definition sel_title := {| selName := Some "title"; selAttr := None |}.
Definition sel_item := {| selName := None; selAttr := Some (AttrEquals "data-testid" "item-basic") |}.
Definition sel_image := {| selName := Some "img"; selAttr := Some (AttrEquals "data-testid" "image") |}.
Definition sel_heading := {| selName := None; selAttr := Some (AttrStartsWith "class" "item-data-content_heading") |}.
Definition sel_infoLine := {| selName := None; selAttr := Some (AttrStartsWith "class" "item-data-content_itemInfoLine") |}.
Definition sel_price := {| selName := None; selAttr := Some (AttrStartsWith "class" "price_price") |}.
Definition sel_link := {| selName := Some "a"; selAttr := Some (AttrStartsWith "class" "item-layout_itemLink") |}.

Definition possibleSelectors : list Selector := [sel_item].
Definition baseUrl : string := "https://www.yad2.co.il".
Definition captchaTitle : string := "ShieldSquare Captcha".
Definition botDetectedMessage : string := "Bot detection encountered, could not proceed".
Definition noItemsMessage : string := "Could not find feed items on the page".

(** The body of [$feedItems.each((_, elm) => ...)]: the record pushed for
    one item node. *)
Definition extractAd (elm : Node) : AdRecord :=
  let imageUrl := attr (find elm sel_image) "src" in
  let address := trim (text (eq_ 1 (find elm sel_heading))) in
  let description := trim (text (first (find elm sel_infoLine))) in
  let structure := trim (text (eq_ 1 (find elm sel_infoLine))) in
  let price := trim (text (find elm sel_price)) in
  let relativeLink := attr (find elm sel_link) "href" in
  let fullLink :=
    match relativeLink with
    | Some l => if truthy l then baseUrl +:+ l else ""
    | None => ""
    end in
  {| fullLink := js_or (Some fullLink) "";
     imageUrl := js_or imageUrl "";
     address := address;
     description := description;
     structure := structure;
     price := price |}.

(** The [for (const selector of possibleSelectors)] loop; [feedItems] is the
    variable [$feedItems], [None] while it is undefined. *)
Fixpoint resolveFeedItems (doc : Document) (selectors : list Selector)
    (feedItems : option (list Node)) : option (list Node) :=
  match selectors with
  | [] => feedItems
  | selector :: rest =>
      let found := select doc selector in
      if (0 <? length found)%nat then Some found
      else resolveFeedItems doc rest (Some found)
  end.

(** [scrapeItemsAndExtractAdDetails] from [cheerio.load] on. *)
Definition extractAdDetails (doc : Document) : string + list AdRecord :=
  let titleText := text (first (select doc sel_title)) in
  if String.eqb titleText captchaTitle then inl botDetectedMessage
  else
    match resolveFeedItems doc possibleSelectors None with
    | Some (elm :: elms) => inr (map extractAd (elm :: elms))
    | _ => inl noItemsMessage
    end.

(** ** JavaScript [Set<string>]: the elements in insertion order *)

Definition Set_has (s : list string) (x : string) : bool := bool_decide (x ∈ s).
Definition Set_add (s : list string) (x : string) : list string :=
  if Set_has s x then s else s ++ [x].
(** [new Set(iterable)] *)
Definition Set_new (iterable : list string) : list string := foldl Set_add [] iterable.

Definition nl : string := bytes [10%nat].

Record Config := {
  telegramApiToken : option string;
  chatId : option string;
}.

(** [process.env] *)
Record ProcessEnv := {
  API_TOKEN : option string;
  CHAT_ID : option string;
}.

(** [a || b] for [a : string | undefined] and [b : string | null]. *)
Definition js_or_else (a b : option string) : option string :=
  match a with
  | Some s => if truthy s then Some s else b
  | None => b
  end.

Section Pipeline.

(** The platform's libraries. [cheerio_load html] is the document
    [cheerio.load(html)] parses. [JSON_parse data] is [Some arr] when
    [new Set(JSON.parse(data))] is built from the strings [arr], and [None]
    when it throws; the elements are strings, as the type [Set<string>] of
    [savedAds] has it and as the program writes them: a state file whose
    array holds other values is outside this development.
    [JSON_stringify arr] is [JSON.stringify(arr, null, 2)]. *)
Context (cheerio_load : string → Document).
Context (JSON_parse : string → option (list string)).
Context (JSON_stringify : list string → string).

(** *** Listing extractor, with the fetch *)
Definition scrapeItemsAndExtractAdDetails (env : Env) (url : string) : M (list AdRecord) :=
  let! yad2Html := getYad2Response env url defaultRetries defaultMaxTimeout in
  match extractAdDetails (cheerio_load yad2Html) with
  | inl message => throw message
  | inr adDetails => ret adDetails
  end.

(** *** Change detector: [checkForNewItems] *)

Definition filePathOf (topic : string) : string := "./data/" +:+ topic +:+ ".json".
Definition backupPathOf (topic : string) : string := filePathOf topic +:+ ".backup".
Definition pushFlag : string := "push_me".

Definition createPushFlagForWorkflow : M unit := writeFile pushFlag "".

(** The first [try] block: the seen-set is read, or created empty. *)
Definition loadSavedAds (topic : string) : M (list string) :=
  let filePath := filePathOf topic in
  tryCatch
    (let! present := existsSync filePath in
     if present : bool then
       let! data := readFile filePath in
       match JSON_parse data with
       | Some arr => ret (Set_new arr)
       | None =>
           do! writeFile (filePath +:+ ".backup") data in
           ret []
       end
     else
       do! mkdir "data" in
       do! writeFile filePath "[]" in
       ret [])
    (λ _, throw ("Could not read or create " +:+ filePath)).

Definition checkForNewItems (ads : list AdRecord) (topic : string) : M (list AdRecord) :=
  let filePath := filePathOf topic in
  let! savedAds := loadSavedAds topic in
  let newItems := filter (λ ad, Set_has savedAds (imageUrl ad) = false) ads in
  if (0 <? length newItems)%nat then
    let savedAds := foldl (λ s ad, Set_add s (imageUrl ad)) savedAds newItems in
    do! writeFile filePath (JSON_stringify savedAds) in
    do! createPushFlagForWorkflow in
    ret newItems
  else ret newItems.

(** *** Notifier *)

Definition sendTelegramMessage (env : Env) (chatId text apiToken : string) : M unit :=
  let url := "https://api.telegram.org/bot" +:+ apiToken +:+ "/sendMessage" in
  tryCatch
    (let! response := http env (EvPost url (TextPayload chatId text)) in
     match response with
     | Response true _ _ _ => ret tt
     | Response false _ statusText _ => throw ("Failed to send message: " +:+ statusText)
     | NetworkError message => throw message
     end)
    (λ error, throw error).

Definition sendTelegramPhotoMessage (env : Env) (chatId photoUrl caption apiToken : string)
    : M unit :=
  let url := "https://api.telegram.org/bot" +:+ apiToken +:+ "/sendPhoto" in
  tryCatch
    (let! response := http env (EvPost url (PhotoPayload chatId photoUrl caption)) in
     match response with
     | Response true _ _ _ => ret tt
     | Response false _ statusText _ =>
         throw ("Failed to send photo message: " +:+ statusText)
     | NetworkError message => throw message
     end)
    (λ error, throw error).

(** *** Orchestrator: [scrape] *)

Definition itemMessage (item : AdRecord) : string :=
  address item +:+ nl +:+ description item +:+ nl +:+ structure item +:+ nl
  +:+ price item +:+ nl +:+ nl +:+ fullLink item.

(** The [for (const item of newItems)] loop. *)
Fixpoint sendNewItems (env : Env) (chatId apiToken : string) (newItems : list AdRecord)
    : M unit :=
  match newItems with
  | [] => ret tt
  | item :: rest =>
      let msg := itemMessage item in
      do! (if truthy (imageUrl item)
           then sendTelegramPhotoMessage env chatId (imageUrl item) msg apiToken
           else sendTelegramMessage env chatId msg apiToken) in
      sendNewItems env chatId apiToken rest
  end.

(** The [try] block of [scrape]. *)
Definition scrapeStages (env : Env) (chatId apiToken topic url : string) : M unit :=
  let! scrapeResults := scrapeItemsAndExtractAdDetails env url in
  let! newItems := checkForNewItems scrapeResults topic in
  if (0 <? length newItems)%nat
  then sendNewItems env chatId apiToken newItems
  else ret tt.

Definition failureText (e : string) : string :=
  let errMsg := js_or (Some e) "Unknown error occurred" in
  "Scan workflow failed... " +:+ bytes [195; 176; 197; 184; 203; 156; 194; 165]%nat
  +:+ nl +:+ "Error: " +:+ errMsg.

Definition scrape (config : Config) (process_env : ProcessEnv) (env : Env)
    (topic url : string) : M unit :=
  let apiToken := js_or_else (API_TOKEN process_env) (telegramApiToken config) in
  let chatId := js_or_else (CHAT_ID process_env) (chatId config) in
  match apiToken, chatId with
  | Some apiToken, Some chatId =>
      if truthy apiToken && truthy chatId then
        tryCatch (scrapeStages env chatId apiToken topic url)
          (λ e, sendTelegramMessage env chatId (failureText e) apiToken)
      else throw "Missing API_TOKEN or CHAT_ID"
  | _, _ => throw "Missing API_TOKEN or CHAT_ID"
  end.

End Pipeline.

(** ** A reference JSON codec for arrays of strings

    An instance of the two JSON functions on the byte-string model, used to
    run the pipeline on the sample worlds only; the theorems are stated for
    any pair of functions. [stringify] is [JSON.stringify(arr, null, 2)] on
    an array of strings. [parse] accepts the JSON texts that are arrays of
    strings, which is what the program writes, with [\u] escapes of one
    code unit; it rejects every other text, among them texts for which
    [new Set(JSON.parse(data))] does not throw ([null], a JSON string, an
    array with other values, an escaped surrogate pair). *)
Module Json.

Definition code (c : ascii) : N := Ascii.N_of_ascii c.
Definition chr (n : N) : string := String (Ascii.ascii_of_N n) EmptyString.

Definition hexDigit (n : N) : N := (if n <? 10 then 48 + n else 87 + n)%N.

(** QuoteJSONString, one character. *)
Definition escapeChar (c : ascii) : string :=
  let n := code c in
  if (n =? 8)%N then "\b"
  else if (n =? 9)%N then "\t"
  else if (n =? 10)%N then "\n"
  else if (n =? 12)%N then "\f"
  else if (n =? 13)%N then "\r"
  else if (n =? 34)%N then "\" +:+ chr 34
  else if (n =? 92)%N then "\\"
  else if (n <? 32)%N then "\u00" +:+ chr (hexDigit (n / 16)) +:+ chr (hexDigit (n mod 16))
  else String c EmptyString.

Fixpoint escape (s : string) : string :=
  match s with
  | EmptyString => EmptyString
  | String c rest => escapeChar c +:+ escape rest
  end.

Definition quote (s : string) : string := chr 34 +:+ escape s +:+ chr 34.

Fixpoint items (arr : list string) : string :=
  match arr with
  | [] => nl +:+ "]"
  | x :: rest => "," +:+ nl +:+ "  " +:+ quote x +:+ items rest
  end.

Definition stringify (arr : list string) : string :=
  match arr with
  | [] => "[]"
  | x :: rest => "[" +:+ nl +:+ "  " +:+ quote x +:+ items rest
  end.

Definition hexValue (c : ascii) : option N :=
  let n := code c in
  if (48 <=? n)%N && (n <=? 57)%N then Some (n - 48)%N
  else if (97 <=? n)%N && (n <=? 102)%N then Some (n - 87)%N
  else if (65 <=? n)%N && (n <=? 70)%N then Some (n - 55)%N
  else None.

(** The UTF-8 text of a code unit given by a [\u] escape; a surrogate has
    none. *)
Definition utf8 (v : N) : option string :=
  if (v <? 128)%N then Some (chr v)
  else if (v <? 2048)%N then Some (chr (192 + v / 64) +:+ chr (128 + v mod 64))
  else if (55296 <=? v)%N && (v <? 57344)%N then None
  else Some (chr (224 + v / 4096) +:+ chr (128 + (v / 64) mod 64) +:+ chr (128 + v mod 64)).

Inductive State :=
| Start                               (* before the opening bracket *)
| Opened                              (* after it: a string or the closing bracket *)
| InString (cur : string)             (* in a string; [cur] is reversed *)
| Escaped (cur : string)              (* after a backslash *)
| Unicode (cur : string) (v : N) (missing : nat)   (* in a [\u] escape *)
| AfterValue                          (* after a string: a comma or the closing bracket *)
| AfterComma                          (* after a comma: a string *)
| Closed.                             (* after the closing bracket *)

Definition isSpace (n : N) : bool :=
  (n =? 32)%N || (n =? 9)%N || (n =? 10)%N || (n =? 13)%N.

Definition push (s cur : string) : string := String.rev_app s cur.

(** One character of input: the next state and the strings read so far
    (newest first). *)
Definition step (st : State) (acc : list string) (c : ascii) : option (State * list string) :=
  let n := code c in
  match st with
  | Start =>
      if isSpace n then Some (Start, acc)
      else if (n =? 91)%N then Some (Opened, acc) else None
  | Opened =>
      if isSpace n then Some (Opened, acc)
      else if (n =? 34)%N then Some (InString EmptyString, acc)
      else if (n =? 93)%N then Some (Closed, acc) else None
  | InString cur =>
      if (n =? 34)%N then Some (AfterValue, String.rev cur :: acc)
      else if (n =? 92)%N then Some (Escaped cur, acc)
      else if (n <? 32)%N then None
      else Some (InString (String c cur), acc)
  | Escaped cur =>
      if (n =? 34)%N || (n =? 92)%N || (n =? 47)%N then Some (InString (String c cur), acc)
      else if (n =? 98)%N then Some (InString (push (chr 8) cur), acc)
      else if (n =? 102)%N then Some (InString (push (chr 12) cur), acc)
      else if (n =? 110)%N then Some (InString (push (chr 10) cur), acc)
      else if (n =? 114)%N then Some (InString (push (chr 13) cur), acc)
      else if (n =? 116)%N then Some (InString (push (chr 9) cur), acc)
      else if (n =? 117)%N then Some (Unicode cur 0 3, acc)
      else None
  | Unicode cur v missing =>
      match hexValue c with
      | None => None
      | Some d =>
          let v := (16 * v + d)%N in
          match missing with
          | S m => Some (Unicode cur v m, acc)
          | O => match utf8 v with
                 | Some s => Some (InString (push s cur), acc)
                 | None => None
                 end
          end
      end
  | AfterValue =>
      if isSpace n then Some (AfterValue, acc)
      else if (n =? 44)%N then Some (AfterComma, acc)
      else if (n =? 93)%N then Some (Closed, acc) else None
  | AfterComma =>
      if isSpace n then Some (AfterComma, acc)
      else if (n =? 34)%N then Some (InString EmptyString, acc) else None
  | Closed => if isSpace n then Some (Closed, acc) else None
  end.

Fixpoint run (st : State) (acc : list string) (s : string) : option (list string) :=
  match s with
  | EmptyString => match st with Closed => Some (rev acc) | _ => None end
  | String c rest =>
      match step st acc c with
      | Some (st', acc') => run st' acc' rest
      | None => None
      end
  end.

Definition parse (data : string) : option (list string) := run Start [] data.

End Json.

(** ** Observations on runs *)

(** The delays of the sleeps in a trace, oldest first. *)
Definition sleepsOf (t : list Event) : list Q :=
  omap (λ e, match e with EvSleep ms => Some ms | _ => None end) t.

(** The requests to the listing page in a trace. *)
Definition getsOf (t : list Event) : list string :=
  omap (λ e, match e with EvGet url => Some url | _ => None end) t.

(** The seen-set a topic has on disk: the array in its state file, empty
    when the file is missing or does not parse. *)
Definition persistedSeenSet (JSON_parse : string → option (list string))
    (topic : string) (w : World) : list string :=
  match files w !! filePathOf topic with
  | Some data => default [] (JSON_parse data)
  | None => []
  end.

(** The request that notifies one new ad. *)
Definition notificationOf (chatId apiToken : string) (item : AdRecord) : Event :=
  if truthy (imageUrl item)
  then EvPost ("https://api.telegram.org/bot" +:+ apiToken +:+ "/sendPhoto")
         (PhotoPayload chatId (imageUrl item) (itemMessage item))
  else EvPost ("https://api.telegram.org/bot" +:+ apiToken +:+ "/sendMessage")
         (TextPayload chatId (itemMessage item)).

(** The system accepts every coming operation on the disk. *)
Definition diskAccepts (w : World) : Prop := Forall (λ f, f = None) (diskFaults w).

(** The world after an accepted [writeFile], and after an accepted [mkdir]. *)
Definition afterWrite (path data : string) (w : World) : World :=
  {| files := <[path := data]> (files w); clockReads := clockReads w;
     requests := requests w; trace := trace w ++ [EvWrite path data];
     diskFaults := tail (diskFaults w) |}.

Definition afterMkdir (path : string) (w : World) : World := emit (EvMkdir path) (popFault w).

(** ** Sample worlds *)

Definition emptyWorld : World :=
  {| files := ∅; clockReads := 0; requests := 0; trace := []; diskFaults := [] |}.

Definition listingUrl : string := "https://www.yad2.co.il/realestate/rent".

(** The site answers every request with a server error; the clock stands
    still. *)
Definition envDown : Env :=
  {| clock := λ _, 0; net := λ _, Response false 500 "Internal Server Error" EmptyString |}.

(** The site is slow and answers with a server error: the first request
    takes 11 seconds, so the second pass (after the 2 s sleep) starts 13
    seconds after the start, and the third (after the 4 s sleep) 17. *)
Definition envSlow : Env :=
  {| clock := λ k, match k with
                   | 0%nat | 1%nat => 0
                   | 2%nat => 13000
                   | _ => 17000
                   end;
     net := λ _, Response false 500 "Internal Server Error" EmptyString |}.

Definition envUp (html : string) : Env :=
  {| clock := λ _, 0; net := λ _, Response true 200 "OK" html |}.

Definition itemFull : Node :=
  Elem "div" [("data-testid", "item-basic")]
    [Elem "a" [("class", "item-layout_itemLink__CZZ7w"); ("href", "/realestate/item/abc")]
       [Elem "img" [("data-testid", "image"); ("src", "imgB")] [];
        Elem "span" [("class", "price_price__xQt90")] [Text " 5,000 "];
        Elem "span" [("class", "item-data-content_heading__tphH4")] [Text "Florentin 5"];
        Elem "span" [("class", "item-data-content_heading__tphH4")] [Text " Tel Aviv "];
        Elem "span" [("class", "item-data-content_itemInfoLine__AeoPP")] [Text "Apartment"];
        Elem "span" [("class", "item-data-content_itemInfoLine__AeoPP")] [Text "2 rooms"]]].

(** An item node without image, price and link. *)
Definition itemBare : Node :=
  Elem "div" [("data-testid", "item-basic")]
    [Elem "span" [("class", "item-data-content_heading__tphH4")] [Text "Florentin 7"];
     Elem "span" [("class", "item-data-content_heading__tphH4")] [Text "Tel Aviv"]].

Definition listingPage : Document :=
  [Elem "html" []
     [Elem "head" [] [Elem "title" [] [Text "yad2"]];
      Elem "body" [] [itemFull; itemBare]]].

(** A bot-challenge page that happens to contain an item node as well. *)
Definition botPage : Document :=
  [Elem "html" []
     [Elem "head" [] [Elem "title" [] [Text "ShieldSquare Captcha"]];
      Elem "body" [] [itemBare]]].

Definition sampleTopic : string := "tel-aviv-2br".

Definition adA : AdRecord :=
  {| fullLink := "https://www.yad2.co.il/realestate/item/a"; imageUrl := "imgA";
     address := "Tel Aviv"; description := "Apartment"; structure := "3 rooms";
     price := "7,000" |}.

Definition adB : AdRecord :=
  {| fullLink := "https://www.yad2.co.il/realestate/item/abc"; imageUrl := "imgB";
     address := "Tel Aviv"; description := "Apartment"; structure := "2 rooms";
     price := "5,000" |}.

(** Two ads without image: both have the empty string as key. *)
Definition adNoImage1 : AdRecord :=
  {| fullLink := "https://www.yad2.co.il/realestate/item/n1"; imageUrl := EmptyString;
     address := "Haifa"; description := "Apartment"; structure := "4 rooms";
     price := "4,000" |}.

Definition adNoImage2 : AdRecord :=
  {| fullLink := "https://www.yad2.co.il/realestate/item/n2"; imageUrl := EmptyString;
     address := "Haifa"; description := "House"; structure := "5 rooms";
     price := "9,000" |}.

(** The topic has seen [imgA]. *)
Definition seenWorld : World :=
  {| files := {[ filePathOf sampleTopic := Json.stringify ["imgA"] ]};
     clockReads := 0; requests := 0; trace := []; diskFaults := [] |}.

(** The topic's state file does not parse. *)
Definition corruptWorld : World :=
  {| files := {[ filePathOf sampleTopic := "{not json" ]};
     clockReads := 0; requests := 0; trace := []; diskFaults := [] |}.

(** The same, in a directory where no file can be created. *)
Definition corruptReadOnlyWorld : World :=
  {| files := {[ filePathOf sampleTopic := "{not json" ]};
     clockReads := 0; requests := 0; trace := [];
     diskFaults :=
       [Some "EACCES: permission denied, open './data/tel-aviv-2br.json.backup'"] |}.

(** A first run for the topic [a/b]: the directory [data] can be made, the
    state file cannot be created in the missing directory [data/a]. *)
Definition slashTopicWorld : World :=
  {| files := ∅; clockReads := 0; requests := 0; trace := [];
     diskFaults :=
       [None; Some "ENOENT: no such file or directory, open './data/a/b.json'"] |}.

(** A second item node without image, and a page with two such nodes. *)
Definition itemBare2 : Node :=
  Elem "div" [("data-testid", "item-basic")]
    [Elem "span" [("class", "item-data-content_heading__tphH4")] [Text "Herzl 12"];
     Elem "span" [("class", "item-data-content_heading__tphH4")] [Text "Haifa"]].

Definition imagelessPage : Document :=
  [Elem "html" []
     [Elem "head" [] [Elem "title" [] [Text "yad2"]];
      Elem "body" [] [itemBare; itemBare2]]].

Definition sampleConfig : Config :=
  {| telegramApiToken := Some "TOKEN"; chatId := Some "CHAT" |}.

Definition sampleProcessEnv : ProcessEnv := {| API_TOKEN := None; CHAT_ID := None |}.

(** A listing page without any item node. *)
Definition emptyPage : Document :=
  [Elem "html" []
     [Elem "head" [] [Elem "title" [] [Text "yad2"]];
      Elem "body" [] [Elem "div" [("class", "feed")] [Text "No results"]]]].

(** The error a Telegram send throws for an answer of the endpoint, if any;
    [photo] tells the photo message from the text message. *)
Definition sendFailure (photo : bool) (r : HttpResult) : option string :=
  match r with
  | NetworkError message => Some message
  | Response true _ _ _ => None
  | Response false _ statusText _ =>
      Some ((if photo then "Failed to send photo message: " else "Failed to send message: ")
            +:+ statusText)
  end.

(** The sink accepts the first [n] requests and rejects the next one. *)
Definition envSinkFailsAt (n : nat) : Env :=
  {| clock := λ _, 0;
     net := λ k, if (k <? n)%nat then Response true 200 "OK" EmptyString
                 else Response false 429 "Too Many Requests" EmptyString |}.

(** The topic has seen both ads of [listingPage]: [imgB] and the empty
    key of the ad without image. *)
Definition knownWorld : World :=
  {| files := {[ filePathOf sampleTopic := Json.stringify ["imgB"; EmptyString] ]};
     clockReads := 0; requests := 0; trace := []; diskFaults := [] |}.

(** A page with two ads without image, a topic on its first run, and a
    sink that accepts the request for the page and rejects the next one. *)
Definition imagelessRun : (string + unit) * World :=
  scrapeStages (λ _, imagelessPage) Json.parse Json.stringify (envSinkFailsAt 1)
    "CHAT" "TOKEN" sampleTopic listingUrl emptyWorld.

Definition configWithoutToken : Config :=
  {| telegramApiToken := None; chatId := Some "CHAT" |}.

Definition processEnvWithSecrets : ProcessEnv :=
  {| API_TOKEN := Some "ENVTOKEN"; CHAT_ID := Some "ENVCHAT" |}.

(** * Properties *)

(** ** Strings *)

Lemma string_app_cons x (a b : string) : String x a +:+ b = String x (a +:+ b).
Proof. reflexivity. Qed.

Lemma string_app_assoc (a b c : string) : (a +:+ b) +:+ c = a +:+ b +:+ c.
Proof. induction a as [| x a IH]; [done |]. by rewrite !string_app_cons, IH. Qed.

Lemma string_app_empty_r (a : string) : a +:+ EmptyString = a.
Proof. induction a as [| x a IH]; [done |]. by rewrite string_app_cons, IH. Qed.

Lemma string_length_app (a b : string) :
  String.length (a +:+ b) = (String.length a + String.length b)%nat.
Proof.
  induction a as [| c a IH]; [done |].
  rewrite string_app_cons. cbn [String.length]. by rewrite IH.
Qed.

Lemma prefix_app (a b : string) : String.prefix a (a +:+ b) = true.
Proof.
  apply String.prefix_correct. induction a as [| c a IH].
  - by destruct b.
  - rewrite string_app_cons. cbn [String.length String.substring]. by rewrite IH.
Qed.

Lemma includes_unfold haystack needle :
  includes haystack needle
  = if String.prefix needle haystack then true
    else match haystack with
         | EmptyString => false
         | String _ rest => includes rest needle
         end.
Proof. by destruct haystack. Qed.

(** A string includes each of its suffixes. *)
Lemma includes_suffix (a b : string) : includes (a +:+ b) b = true.
Proof.
  induction a as [| c a IH]; rewrite includes_unfold.
  - change (EmptyString +:+ b) with b.
    by rewrite <- (string_app_empty_r b) at 2; rewrite prefix_app.
  - rewrite string_app_cons. by destruct (String.prefix b _).
Qed.

(** ** The monad *)

Lemma http_trace env request w :
  trace (http env request w).2 = trace w ++ [request].
Proof. unfold http. by destruct (net env (requests w)). Qed.

(** ** Resilient fetcher *)

(** A pass of the [try] block adds at most the request to the trace. *)
Lemma attemptFetch_trace env url startTime maxTimeout w :
  trace (attemptFetch env url startTime maxTimeout w).2 = trace w
  ∨ trace (attemptFetch env url startTime maxTimeout w).2 = trace w ++ [EvGet url].
Proof.
  unfold attemptFetch, bind, Date_now; simpl.
  destruct (_ >? _); [by left | right].
  unfold http; simpl.
  destruct (net env (requests w)) as [m | [] st stt body]; reflexivity.
Qed.

(** A pass made after the ceiling throws before any request goes out. *)
Lemma attemptFetch_timeout env url startTime maxTimeout w :
  clock env (clockReads w) - startTime > maxTimeout →
  ∃ w', attemptFetch env url startTime maxTimeout w
        = (inl "Maximum timeout reached while trying to fetch URL", w')
        ∧ trace w' = trace w ∧ clockReads w' = S (clockReads w).
Proof.
  intros Hlate. unfold attemptFetch, bind, Date_now; simpl.
  destruct (Z.gtb_spec (clock env (clockReads w) - startTime) maxTimeout); [| lia].
  eexists; split; [reflexivity | done].
Qed.

(** The timeout is thrown inside the [try], so the loop's own [catch]
    takes it: with retries left, a pass made after the ceiling costs one
    retry and one more sleep, and the loop goes on. *)
Lemma fetchLoop_timeout_consumes_retry env url startTime maxTimeout r w :
  clock env (clockReads w) - startTime > maxTimeout →
  ∃ w', fetchLoop env url startTime maxTimeout (S (S r)) w
        = fetchLoop env url startTime maxTimeout (S r) w'
        ∧ trace w' = trace w ++ [EvSleep (backoffDelay (3 - Z.of_nat (S r)))].
Proof.
  intros Hlate.
  destruct (attemptFetch_timeout env url startTime maxTimeout w Hlate) as (w1 & Hrun & Htr & _).
  exists (emit (EvSleep (backoffDelay (3 - Z.of_nat (S r)))) w1). split.
  - change (fetchLoop env url startTime maxTimeout (S (S r)) w)
      with (tryCatch (attemptFetch env url startTime maxTimeout)
              (λ _, do! sleep (backoffDelay (3 - Z.of_nat (S r))) in
                    fetchLoop env url startTime maxTimeout (S r)) w).
    unfold tryCatch. rewrite Hrun. reflexivity.
  - simpl. by rewrite Htr.
Qed.

Lemma fetchLoop_S env url startTime maxTimeout r w :
  fetchLoop env url startTime maxTimeout (S r) w
  = tryCatch (attemptFetch env url startTime maxTimeout)
      (λ _, match r with
            | O => throw "Network error occurred after multiple retries"
            | S _ => do! sleep (backoffDelay (3 - Z.of_nat r)) in
                     fetchLoop env url startTime maxTimeout r
            end) w.
Proof. reflexivity. Qed.

#[local] Arguments fetchLoop : simpl never.

(** The delay before the retry number [i + 1] of a loop entered with
    [retries] retries is [2 ^ (3 - retries + i + 1)] seconds. *)
Lemma fetchLoop_delays env url startTime maxTimeout retries w :
  ∃ evs, trace (fetchLoop env url startTime maxTimeout retries w).2 = trace w ++ evs
    ∧ ∀ i d, sleepsOf evs !! i = Some d →
        d = backoffDelay (3 - Z.of_nat retries + Z.of_nat i + 1).
Proof.
  revert w. induction retries as [| r IH]; intros w.
  { exists []. split; [by rewrite app_nil_r | done]. }
  rewrite fetchLoop_S. unfold tryCatch.
  pose proof (attemptFetch_trace env url startTime maxTimeout w) as Hat.
  destruct (attemptFetch env url startTime maxTimeout w) as [[e | body] w1]; simpl in *.
  all: assert (∃ pre, trace w1 = trace w ++ pre ∧ sleepsOf pre = []) as (pre & Hpre & Hs)
    by (destruct Hat as [-> | ->]; [exists [] | exists [EvGet url]]; by rewrite ?app_nil_r).
  2:{ exists pre. split; [done |]. rewrite Hs. by intros i d Hi. }
  destruct r as [| r'].
  { exists pre. split; [done |]. rewrite Hs. by intros i d Hi. }
  unfold bind, sleep; simpl.
  destruct (IH (emit (EvSleep (backoffDelay (3 - Z.of_nat (S r')))) w1)) as (evs & Hevs & Hd).
  exists (pre ++ EvSleep (backoffDelay (3 - Z.of_nat (S r'))) :: evs). split.
  - rewrite Hevs. simpl. rewrite Hpre. by rewrite <- !app_assoc.
  - intros i d. unfold sleepsOf in *. rewrite omap_app, Hs. simpl.
    destruct i as [| j]; simpl.
    + intros [= <-]. f_equal. lia.
    + intros Hj. rewrite (Hd j d Hj). f_equal. lia.
Qed.

(** With the default three retries the delay before retry [i + 1] is
    [2 ^ (i + 1)] seconds: 2 s, then 4 s. *)
Lemma default_backoff_delays env url w :
  ∃ evs, trace (getYad2Response env url defaultRetries defaultMaxTimeout w).2 = trace w ++ evs
    ∧ ∀ i d, sleepsOf evs !! i = Some d →
        d = ((2 # 1) ^ (Z.of_nat i + 1) * (1000 # 1))%Q.
Proof.
  unfold getYad2Response, bind, Date_now. cbn [fst snd].
  match goal with |- context [fetchLoop _ _ ?s _ ?n ?w1] =>
    destruct (fetchLoop_delays env url s defaultMaxTimeout n w1) as (evs & Hevs & Hd) end.
  exists evs. split; [exact Hevs |].
  intros i d Hi. rewrite (Hd i d Hi). unfold backoffDelay.
  change (Z.of_nat (Z.to_nat defaultRetries)) with 3.
  destruct (Z.ltb_spec (3 - 3 + Z.of_nat i + 1) (-1074)) as [Hlt | _]; [lia |].
  done.
Qed.

(** When the clock never runs backwards, a loop entered after the ceiling
    sends no request any more, and fails. *)
Lemma fetchLoop_no_attempt_after_timeout env url startTime maxTimeout retries w :
  (∀ i j, (i ≤ j)%nat → clock env i ≤ clock env j) →
  clock env (clockReads w) - startTime > maxTimeout →
  ∃ e w' evs, fetchLoop env url startTime maxTimeout retries w = (inl e, w')
    ∧ trace w' = trace w ++ evs ∧ getsOf evs = [].
Proof.
  intros Hmono. revert w. induction retries as [| r IH]; intros w Hlate.
  { exists "Failed to fetch Yad2 response", w, []. by rewrite app_nil_r. }
  rewrite fetchLoop_S. unfold tryCatch.
  destruct (attemptFetch_timeout env url startTime maxTimeout w Hlate) as (w1 & -> & Htr & Hck).
  destruct r as [| r'].
  { eexists _, w1, []. by rewrite app_nil_r. }
  unfold bind, sleep. cbn [fst snd].
  destruct (IH (emit (EvSleep (backoffDelay (3 - Z.of_nat (S r')))) w1)) as (e & w' & evs & -> & Hevs & Hg).
  { simpl. rewrite Hck. specialize (Hmono (clockReads w) (S (clockReads w))). lia. }
  exists e, w', (EvSleep (backoffDelay (3 - Z.of_nat (S r'))) :: evs).
  split; [done |]. split; [| done].
  rewrite Hevs. simpl. rewrite Htr. by rewrite <- app_assoc.
Qed.

(** C2, at the default arguments: the site answers the first request with a
    server error; the second pass starts 13 s after the first, past the
    10 s ceiling. The fetch does not fail there: the timeout costs a retry,
    the loop sleeps four more seconds, makes a third pass, and reports the
    exhaustion of the retries, not the timeout. *)
Theorem timeout_is_caught_by_the_retry_loop :
  clock envSlow 2 - clock envSlow 0 > defaultMaxTimeout
  ∧ (getYad2Response envSlow listingUrl defaultRetries defaultMaxTimeout emptyWorld).1
    = inl "Network error occurred after multiple retries"
  ∧ trace (getYad2Response envSlow listingUrl defaultRetries defaultMaxTimeout emptyWorld).2
    = [EvGet listingUrl; EvSleep (2000 # 1); EvSleep (4000 # 1)]
  ∧ clockReads (getYad2Response envSlow listingUrl defaultRetries defaultMaxTimeout emptyWorld).2
    = 4%nat.
Proof. repeat split; reflexivity. Qed.

(** C3, as stated for every number of retries, fails at [retries = 2]: the
    site is down, and the one retry is made after [2 ^ 2] seconds, not after
    [2 ^ 1]. *)
Theorem backoff_counts_from_three :
  trace (getYad2Response envDown listingUrl 2 defaultMaxTimeout emptyWorld).2
  = [EvGet listingUrl; EvSleep (4000 # 1); EvGet listingUrl]
  ∧ ¬ (4000 # 1 == (2 # 1) ^ 1 * (1000 # 1))%Q.
Proof. split; [reflexivity | by intros H]. Qed.

(** C3, amended: with the default [retries = 3], the only value the program
    passes, the sleep before retry [i] lasts [2 ^ i] seconds, whatever the
    site answers and the clock shows: 2 s before the first retry, 4 s before
    the second, as the run against a site that is down shows. *)
Theorem default_backoff_is_two_to_the_i (cheerio_load : string → Document) env url w :
  (∃ evs,
     trace (scrapeItemsAndExtractAdDetails cheerio_load env url w).2 = trace w ++ evs
     ∧ trace (getYad2Response env url defaultRetries defaultMaxTimeout w).2 = trace w ++ evs
     ∧ ∀ i d, sleepsOf evs !! i = Some d →
         d = ((2 # 1) ^ (Z.of_nat i + 1) * (1000 # 1))%Q)
  ∧ sleepsOf (trace (scrapeItemsAndExtractAdDetails cheerio_load envDown url emptyWorld).2)
    = [2000 # 1; 4000 # 1]%Q.
Proof.
  split; [| reflexivity].
  destruct (default_backoff_delays env url w) as (evs & Hevs & Hd).
  exists evs. split_and!; [| exact Hevs | exact Hd].
  rewrite <- Hevs. unfold scrapeItemsAndExtractAdDetails, bind.
  destruct (getYad2Response env url defaultRetries defaultMaxTimeout w) as [[e | html] w1];
    [done |].
  by destruct (extractAdDetails (cheerio_load html)).
Qed.

(** ** Listing extractor *)

Lemma trim_empty : trim EmptyString = EmptyString.
Proof. reflexivity. Qed.

(** C7: a document whose title is the bot-challenge signature makes the
    extraction fail with the bot-detection error, whatever its item nodes,
    and that error is not the no-items error. *)
Theorem bot_block_before_selector_resolution
    (cheerio_load : string → Document) env url w yad2Html w1 :
  getYad2Response env url defaultRetries defaultMaxTimeout w = (inr yad2Html, w1) →
  text (first (select (cheerio_load yad2Html) sel_title)) = captchaTitle →
  extractAdDetails (cheerio_load yad2Html) = inl botDetectedMessage
  ∧ scrapeItemsAndExtractAdDetails cheerio_load env url w = (inl botDetectedMessage, w1)
  ∧ botDetectedMessage ≠ noItemsMessage.
Proof.
  intros Hfetch Htitle.
  assert (extractAdDetails (cheerio_load yad2Html) = inl botDetectedMessage) as Hx.
  { unfold extractAdDetails. rewrite Htitle. reflexivity. }
  split; [exact Hx |]. split; [| discriminate].
  unfold scrapeItemsAndExtractAdDetails, bind. rewrite Hfetch, Hx. reflexivity.
Qed.

Lemma bot_block_before_selector_resolution_witness :
  select botPage sel_item ≠ []
  ∧ extractAdDetails botPage = inl botDetectedMessage
  ∧ (scrapeItemsAndExtractAdDetails (λ _, botPage) (envUp "<html>") listingUrl emptyWorld).1
    = inl botDetectedMessage.
Proof.
  split; [discriminate |].
  destruct (bot_block_before_selector_resolution (λ _, botPage) (envUp "<html>") listingUrl
              emptyWorld "<html>"
              (getYad2Response (envUp "<html>") listingUrl defaultRetries defaultMaxTimeout
                 emptyWorld).2 eq_refl eq_refl) as (H1 & H2 & _).
  split; [exact H1 |]. rewrite H2. reflexivity.
Defined.

Lemma resolveFeedItems_default doc :
  resolveFeedItems doc possibleSelectors None = Some (select doc sel_item).
Proof.
  unfold possibleSelectors, resolveFeedItems.
  by destruct (0 <? length (select doc sel_item))%nat.
Qed.

(** C8: when the page is not the bot challenge and item nodes are found,
    every item node gives one record, in document order; a sub-field that is
    not found is the empty string in it; the link is the origin followed by
    the relative link when a non-empty one is found, and empty otherwise. *)
Theorem extraction_keeps_partial_records doc :
  text (first (select doc sel_title)) ≠ captchaTitle →
  select doc sel_item ≠ [] →
  (∃ adDetails, extractAdDetails doc = inr adDetails
     ∧ adDetails = map extractAd (select doc sel_item)
     ∧ length adDetails = length (select doc sel_item))
  ∧ ∀ elm,
      (attr (find elm sel_image) "src" = None → imageUrl (extractAd elm) = EmptyString)
      ∧ (length (find elm sel_heading) ≤ 1 → address (extractAd elm) = EmptyString)%nat
      ∧ (find elm sel_infoLine = [] → description (extractAd elm) = EmptyString)
      ∧ (length (find elm sel_infoLine) ≤ 1 → structure (extractAd elm) = EmptyString)%nat
      ∧ (find elm sel_price = [] → price (extractAd elm) = EmptyString)
      ∧ (∀ l, attr (find elm sel_link) "href" = Some l → l ≠ EmptyString →
           fullLink (extractAd elm) = baseUrl +:+ l)
      ∧ (attr (find elm sel_link) "href" = None ∨ attr (find elm sel_link) "href" = Some EmptyString →
           fullLink (extractAd elm) = EmptyString).
Proof.
  intros Htitle Hitems. split.
  - exists (map extractAd (select doc sel_item)). split; [| split; [done | by rewrite length_map]].
    unfold extractAdDetails.
    destruct (String.eqb_spec (text (first (select doc sel_title))) captchaTitle); [done |].
    rewrite resolveFeedItems_default. by destruct (select doc sel_item).
  - intros elm. unfold extractAd; cbn [imageUrl address description structure price fullLink].
    repeat split.
    + by intros ->.
    + intros Hlen. destruct (find elm sel_heading) as [| h [| h' hs]]; simpl in Hlen; [done | done | lia].
    + by intros ->.
    + intros Hlen. destruct (find elm sel_infoLine) as [| h [| h' hs]]; simpl in Hlen; [done | done | lia].
    + by intros ->.
    + intros l -> Hl. destruct l; [done |]. reflexivity.
    + by intros [-> | ->].
Qed.

Lemma extraction_keeps_partial_records_witness :
  extractAdDetails listingPage
  = inr [ {| fullLink := "https://www.yad2.co.il/realestate/item/abc"; imageUrl := "imgB";
             address := "Tel Aviv"; description := "Apartment"; structure := "2 rooms";
             price := "5,000" |};
          {| fullLink := EmptyString; imageUrl := EmptyString; address := "Tel Aviv";
             description := EmptyString; structure := EmptyString; price := EmptyString |} ].
Proof.
  destruct (extraction_keeps_partial_records listingPage) as [(ads & -> & -> & _) _].
  - discriminate.
  - discriminate.
  - reflexivity.
Defined.

(** ** JavaScript sets *)

Lemma Set_has_true s x : Set_has s x = true ↔ x ∈ s.
Proof. unfold Set_has. apply bool_decide_eq_true. Qed.

Lemma Set_has_false s x : Set_has s x = false ↔ x ∉ s.
Proof. unfold Set_has. apply bool_decide_eq_false. Qed.

Lemma elem_of_Set_add s x y : y ∈ Set_add s x ↔ y ∈ s ∨ y = x.
Proof.
  unfold Set_add. destruct (Set_has s x) eqn:Hx.
  - apply Set_has_true in Hx. naive_solver.
  - rewrite elem_of_app, list_elem_of_singleton. naive_solver.
Qed.

Lemma elem_of_foldl_Set_add {A} (key : A → string) (l : list A) s y :
  y ∈ foldl (λ s a, Set_add s (key a)) s l ↔ y ∈ s ∨ y ∈ key <$> l.
Proof.
  revert s. induction l as [| a l IH]; intros s; simpl.
  - rewrite elem_of_nil. naive_solver.
  - rewrite IH, elem_of_Set_add, elem_of_cons. naive_solver.
Qed.

Lemma elem_of_Set_new l y : y ∈ Set_new l ↔ y ∈ l.
Proof.
  unfold Set_new. rewrite (elem_of_foldl_Set_add id l [] y), list_fmap_id, elem_of_nil.
  naive_solver.
Qed.

(** A set holds no element twice. *)
Lemma NoDup_foldl_Set_add {A} (key : A → string) (l : list A) s :
  NoDup s → NoDup (foldl (λ s a, Set_add s (key a)) s l).
Proof.
  revert s. induction l as [| a l IH]; intros s Hs; simpl; [done |].
  apply IH. unfold Set_add. destruct (Set_has s (key a)) eqn:Hx; [done |].
  apply Set_has_false in Hx. apply NoDup_app. split; [done |]. split.
  - intros y Hy ->%list_elem_of_singleton. done.
  - apply NoDup_singleton.
Qed.

Lemma NoDup_Set_new l : NoDup (Set_new l).
Proof. apply (NoDup_foldl_Set_add id), NoDup_nil_2. Qed.

(** ** Paths *)

Lemma backupPath_ne_filePath topic : backupPathOf topic ≠ filePathOf topic.
Proof.
  unfold backupPathOf. intros H. apply (f_equal String.length) in H.
  rewrite string_length_app in H. simpl in H. lia.
Qed.

Lemma pushFlag_ne_filePath topic : pushFlag ≠ filePathOf topic.
Proof. discriminate. Qed.

Lemma pushFlag_ne_backupPath topic : pushFlag ≠ backupPathOf topic.
Proof. discriminate. Qed.

(** ** The disk *)

Lemma writeFile_run path data w :
  writeFile path data w
  = match nextFault w with
    | Some message => (inl message, popFault w)
    | None => (inr tt, afterWrite path data w)
    end.
Proof. reflexivity. Qed.

Lemma mkdir_run path w :
  mkdir path w
  = match nextFault w with
    | Some message => (inl message, popFault w)
    | None => (inr tt, afterMkdir path w)
    end.
Proof. reflexivity. Qed.

Lemma EvWrite_inj path data path' data' :
  EvWrite path data = EvWrite path' data' → path = path' ∧ data = data'.
Proof. by intros [= -> ->]. Qed.

Lemma diskAccepts_nextFault w : diskAccepts w → nextFault w = None.
Proof.
  unfold diskAccepts, nextFault. destruct (diskFaults w) as [| [m |] rest]; [done | | done].
  by intros [[=] _]%Forall_cons.
Qed.

Lemma diskAccepts_tail w : diskAccepts w → Forall (λ f, f = None) (tail (diskFaults w)).
Proof.
  unfold diskAccepts. destruct (diskFaults w) as [| f rest]; [done |].
  by intros [_ ?]%Forall_cons.
Qed.

Lemma diskAccepts_afterWrite path data w : diskAccepts w → diskAccepts (afterWrite path data w).
Proof. apply diskAccepts_tail. Qed.

Lemma diskAccepts_afterMkdir path w : diskAccepts w → diskAccepts (afterMkdir path w).
Proof. apply diskAccepts_tail. Qed.

(** ** Change detector *)

Section Detector.

Context (JSON_parse : string → option (list string)).
Context (JSON_stringify : list string → string).

(** The run of the first [try] block, by the state file and the answers of
    the system: an error of the disk becomes the [Could not read or create]
    error. *)
Lemma loadSavedAds_run topic w :
  loadSavedAds JSON_parse topic w
  = match files w !! filePathOf topic with
    | Some data =>
        match JSON_parse data with
        | Some arr => (inr (Set_new arr), w)
        | None =>
            match nextFault w with
            | Some _ => (inl ("Could not read or create " +:+ filePathOf topic), popFault w)
            | None => (inr [], afterWrite (backupPathOf topic) data w)
            end
        end
    | None =>
        match nextFault w with
        | Some _ => (inl ("Could not read or create " +:+ filePathOf topic), popFault w)
        | None =>
            match nextFault (afterMkdir "data" w) with
            | Some _ =>
                (inl ("Could not read or create " +:+ filePathOf topic),
                 popFault (afterMkdir "data" w))
            | None => (inr [], afterWrite (filePathOf topic) "[]" (afterMkdir "data" w))
            end
        end
    end.
Proof.
  unfold loadSavedAds, tryCatch, bind, existsSync, readFile.
  destruct (files w !! filePathOf topic) as [data |] eqn:Hfile; cbn [bool_decide decide_rel fst snd].
  - rewrite bool_decide_eq_true_2 by eauto. rewrite Hfile.
    destruct (JSON_parse data); [done |].
    rewrite writeFile_run. by destruct (nextFault w).
  - rewrite bool_decide_eq_false_2 by (by intros [? ?]).
    rewrite mkdir_run. destruct (nextFault w); [done |].
    rewrite writeFile_run. by destruct (nextFault (afterMkdir "data" w)).
Qed.

(** What a load that returns has found and done. *)
Lemma loadSavedAds_inr topic w savedAds wl :
  loadSavedAds JSON_parse topic w = (inr savedAds, wl) →
  savedAds = Set_new (persistedSeenSet JSON_parse topic w)
  ∧ ((∃ data arr, files w !! filePathOf topic = Some data ∧ JSON_parse data = Some arr ∧ wl = w)
     ∨ (∃ data, files w !! filePathOf topic = Some data ∧ JSON_parse data = None
          ∧ nextFault w = None ∧ wl = afterWrite (backupPathOf topic) data w)
     ∨ (files w !! filePathOf topic = None ∧ nextFault w = None
          ∧ wl = afterWrite (filePathOf topic) "[]" (afterMkdir "data" w))).
Proof.
  rewrite loadSavedAds_run. unfold persistedSeenSet.
  destruct (files w !! filePathOf topic) as [data |] eqn:Hfile.
  - destruct (JSON_parse data) as [arr |] eqn:Hparse.
    + intros [= <- <-]. split; [done |]. left. eauto.
    + destruct (nextFault w) eqn:Hfault; [done |]. intros [= <- <-].
      split; [done |]. right. left. eauto.
  - destruct (nextFault w) eqn:Hfault; [done |].
    destruct (nextFault (afterMkdir "data" w)); [done |]. intros [= <- <-].
    split; [done |]. right. right. eauto.
Qed.

Lemma loadSavedAds_accepted topic w :
  diskAccepts w →
  ∃ savedAds wl, loadSavedAds JSON_parse topic w = (inr savedAds, wl) ∧ diskAccepts wl.
Proof.
  intros Hok. rewrite loadSavedAds_run.
  destruct (files w !! filePathOf topic) as [data |].
  - destruct (JSON_parse data); [by eauto |].
    rewrite (diskAccepts_nextFault w Hok).
    eexists _, _. split; [reflexivity |]. by apply diskAccepts_afterWrite.
  - rewrite (diskAccepts_nextFault w Hok).
    rewrite (diskAccepts_nextFault _ (diskAccepts_afterMkdir "data" w Hok)).
    eexists _, _. split; [reflexivity |].
    by apply diskAccepts_afterWrite, diskAccepts_afterMkdir.
Qed.

Lemma filter_new_items (saved : list string) (ads : list AdRecord) :
  filter (λ ad, Set_has (Set_new saved) (imageUrl ad) = false) ads
  = filter (λ ad, imageUrl ad ∉ saved) ads.
Proof.
  apply list_filter_iff. intros ad. by rewrite Set_has_false, elem_of_Set_new.
Qed.

(** The run of [checkForNewItems] after the load. *)
Lemma checkForNewItems_run ads topic w :
  checkForNewItems JSON_parse JSON_stringify ads topic w
  = match loadSavedAds JSON_parse topic w with
    | (inl e, w') => (inl e, w')
    | (inr savedAds, wl) =>
        match filter (λ ad, Set_has savedAds (imageUrl ad) = false) ads with
        | [] => (inr [], wl)
        | newItems =>
            let state :=
              JSON_stringify (foldl (λ s ad, Set_add s (imageUrl ad)) savedAds newItems) in
            match nextFault wl with
            | Some message => (inl message, popFault wl)
            | None =>
                match nextFault (afterWrite (filePathOf topic) state wl) with
                | Some message =>
                    (inl message, popFault (afterWrite (filePathOf topic) state wl))
                | None =>
                    (inr newItems,
                     afterWrite pushFlag EmptyString (afterWrite (filePathOf topic) state wl))
                end
            end
        end
    end.
Proof.
  unfold checkForNewItems, bind.
  destruct (loadSavedAds JSON_parse topic w) as [[e | savedAds] wl]; [done |].
  destruct (filter _ ads) as [| ad rest]; [done |].
  cbn [length Nat.ltb Nat.leb]. rewrite writeFile_run.
  destruct (nextFault wl); [done |].
  unfold createPushFlagForWorkflow. rewrite writeFile_run.
  by destruct (nextFault _).
Qed.

(** What a run that returns has found and done. *)
Lemma checkForNewItems_inr ads topic w newItems w' :
  checkForNewItems JSON_parse JSON_stringify ads topic w = (inr newItems, w') →
  ∃ wl,
    loadSavedAds JSON_parse topic w = (inr (Set_new (persistedSeenSet JSON_parse topic w)), wl)
    ∧ newItems = filter (λ ad, imageUrl ad ∉ persistedSeenSet JSON_parse topic w) ads
    ∧ match newItems with
      | [] => w' = wl
      | _ =>
          w' = afterWrite pushFlag EmptyString
                 (afterWrite (filePathOf topic)
                    (JSON_stringify
                       (foldl (λ s ad, Set_add s (imageUrl ad))
                          (Set_new (persistedSeenSet JSON_parse topic w)) newItems))
                    wl)
      end.
Proof.
  rewrite checkForNewItems_run.
  destruct (loadSavedAds JSON_parse topic w) as [[e | savedAds] wl] eqn:Hload; [done |].
  destruct (loadSavedAds_inr topic w savedAds wl Hload) as [-> _].
  rewrite filter_new_items.
  destruct (filter (λ ad, imageUrl ad ∉ persistedSeenSet JSON_parse topic w) ads)
    as [| ad rest] eqn:Hnew.
  { intros [= <- <-]. by exists wl. }
  cbn zeta. destruct (nextFault wl); [done |].
  destruct (nextFault (afterWrite _ _ wl)); [done |].
  intros [= <- <-]. by exists wl.
Qed.

Lemma checkForNewItems_accepted ads topic w :
  diskAccepts w →
  ∃ newItems w',
    checkForNewItems JSON_parse JSON_stringify ads topic w = (inr newItems, w') ∧ diskAccepts w'.
Proof.
  intros Hok. rewrite checkForNewItems_run.
  destruct (loadSavedAds_accepted topic w Hok) as (savedAds & wl & -> & Hwl).
  destruct (filter _ ads) as [| ad rest]; [by eauto |].
  cbn zeta. rewrite (diskAccepts_nextFault wl Hwl).
  rewrite (diskAccepts_nextFault _ (diskAccepts_afterWrite _ _ wl Hwl)).
  eexists _, _. split; [reflexivity |]. by do 2 apply diskAccepts_afterWrite.
Qed.

(** What a run adds to the trace, in two parts: the events of the load and
    those of the update. The update writes the loaded set with the keys of
    the new items; only a run that writes the push flag, the last thing it
    does, returns new items. *)
Lemma checkForNewItems_trace ads topic w :
  let newItems := filter (λ ad, imageUrl ad ∉ persistedSeenSet JSON_parse topic w) ads in
  let state :=
    JSON_stringify (foldl (λ s ad, Set_add s (imageUrl ad))
                      (Set_new (persistedSeenSet JSON_parse topic w)) newItems) in
  ∃ pre post,
    trace (checkForNewItems JSON_parse JSON_stringify ads topic w).2 = trace w ++ pre ++ post
    ∧ (pre = [] ∨ pre = [EvMkdir "data"]
       ∨ pre = [EvMkdir "data"; EvWrite (filePathOf topic) "[]"]
         ∧ files w !! filePathOf topic = None
       ∨ ∃ data, pre = [EvWrite (backupPathOf topic) data])
    ∧ (post = []
         ∧ (∀ r w', checkForNewItems JSON_parse JSON_stringify ads topic w = (inr r, w') →
                    r = [])
       ∨ post = [EvWrite (filePathOf topic) state] ∧ newItems ≠ []
         ∧ (∀ r w', checkForNewItems JSON_parse JSON_stringify ads topic w ≠ (inr r, w'))
       ∨ post = [EvWrite (filePathOf topic) state; EvWrite pushFlag EmptyString]
         ∧ newItems ≠ []
         ∧ ∃ w', checkForNewItems JSON_parse JSON_stringify ads topic w = (inr newItems, w')
             ∧ files w' !! pushFlag = Some EmptyString)
    ∧ requests (checkForNewItems JSON_parse JSON_stringify ads topic w).2 = requests w
    ∧ clockReads (checkForNewItems JSON_parse JSON_stringify ads topic w).2 = clockReads w.
Proof.
  cbv zeta. rewrite checkForNewItems_run.
  assert (∃ pre,
            trace (loadSavedAds JSON_parse topic w).2 = trace w ++ pre
            ∧ (pre = [] ∨ pre = [EvMkdir "data"]
               ∨ pre = [EvMkdir "data"; EvWrite (filePathOf topic) "[]"]
                 ∧ files w !! filePathOf topic = None
               ∨ ∃ data, pre = [EvWrite (backupPathOf topic) data])
            ∧ requests (loadSavedAds JSON_parse topic w).2 = requests w
            ∧ clockReads (loadSavedAds JSON_parse topic w).2 = clockReads w)
    as (pre & Hpre & Hshape & Hreq & Hck).
  { rewrite loadSavedAds_run.
    destruct (files w !! filePathOf topic) as [data |] eqn:Hfile; [destruct (JSON_parse data) |].
    - exists []. rewrite app_nil_r. by eauto.
    - destruct (nextFault w).
      + exists []. rewrite app_nil_r. by eauto.
      + exists [EvWrite (backupPathOf topic) data]. split_and!; [done | | done | done].
        do 3 right. by eexists.
    - destruct (nextFault w); [exists []; rewrite app_nil_r; by eauto |].
      destruct (nextFault (afterMkdir "data" w)).
      + exists [EvMkdir "data"]. split_and!; [done | | done | done]. right. by left.
      + exists [EvMkdir "data"; EvWrite (filePathOf topic) "[]"].
        cbn [snd afterWrite afterMkdir emit popFault trace requests clockReads].
        rewrite <- app_assoc. split_and!; [done | | done | done]. right. right. by left. }
  destruct (loadSavedAds JSON_parse topic w) as [[e | savedAds] wl] eqn:Hload; cbn [snd] in *.
  { exists pre, []. rewrite app_nil_r. split_and!; [done | done | | done | done].
    left. split; [done |]. intros r w' [=]. }
  destruct (loadSavedAds_inr topic w savedAds wl Hload) as [-> _].
  rewrite filter_new_items.
  destruct (filter (λ ad, imageUrl ad ∉ persistedSeenSet JSON_parse topic w) ads)
    as [| ad rest].
  { exists pre, []. rewrite app_nil_r. split_and!; [done | done | | done | done].
    left. split; [done |]. by intros r w' [= <- _]. }
  cbn zeta. destruct (nextFault wl).
  { exists pre, []. rewrite app_nil_r. split_and!; [done | done | | done | done].
    left. split; [done |]. intros r w' [=]. }
  destruct (nextFault (afterWrite _ _ wl)).
  - eexists pre, [_]. cbn [snd popFault afterWrite trace requests clockReads].
    rewrite Hpre, <- app_assoc. split_and!; [done | done | | done | done].
    right. left. split_and!; [done | done |]. intros r w' [=].
  - eexists pre, [_; _]. cbn [snd afterWrite trace requests clockReads].
    rewrite Hpre, <- !app_assoc. split_and!; [done | done | | done | done].
    right. right. split_and!; [done | done |]. eexists. split; [done |].
    cbn [afterWrite files]. apply lookup_insert_eq.
Qed.


Lemma filter_nil_of_Forall {A} (P : A → Prop) `{!∀ x, Decision (P x)} (l : list A) :
  (∀ x, x ∈ l → ¬ P x) → filter P l = [].
Proof.
  induction l as [| x l IH]; intros Hall; [done |].
  rewrite filter_cons_False by (apply Hall; left).
  apply IH. intros y Hy. apply Hall. by right.
Qed.

Lemma filter_not_nil {A} (P : A → Prop) `{!∀ x, Decision (P x)} (l : list A) :
  filter P l ≠ [] ↔ ∃ x, x ∈ l ∧ P x.
Proof.
  split.
  - induction l as [| x l IH]; [done |]. intros Hne.
    destruct (decide (P x)) as [HP | HP]; [exists x; split; [left | done] |].
    rewrite filter_cons_False in Hne by done.
    destruct (IH Hne) as (y & Hin & Hy). exists y. split; [by right | done].
  - intros (x & Hin & HP) Hnil.
    assert (x ∈ filter P l) as Hx by (by apply list_elem_of_filter).
    rewrite Hnil in Hx. by apply elem_of_nil in Hx.
Qed.

Lemma filter_not_in_nil (ads : list AdRecord) :
  filter (λ ad, imageUrl ad ∉ ([] : list string)) ads = ads.
Proof.
  induction ads as [| ad ads IH]; [done |].
  rewrite filter_cons_True by apply not_elem_of_nil. by rewrite IH.
Qed.

(** C1: whenever the call returns, the result is the input list filtered by
    absence of the key from the seen-set on disk at the start of the call: a
    subsequence of the input, holding exactly the ads whose key is not in
    that set. The call returns when the system accepts its writes. *)
Theorem detectNew_filters_against_loaded_set ads topic w :
  (∀ newItems w',
     checkForNewItems JSON_parse JSON_stringify ads topic w = (inr newItems, w') →
     newItems = filter (λ ad, imageUrl ad ∉ persistedSeenSet JSON_parse topic w) ads
     ∧ newItems `sublist_of` ads
     ∧ ∀ ad, ad ∈ newItems ↔ ad ∈ ads ∧ imageUrl ad ∉ persistedSeenSet JSON_parse topic w)
  ∧ (diskAccepts w →
     ∃ newItems w', checkForNewItems JSON_parse JSON_stringify ads topic w = (inr newItems, w')).
Proof.
  split.
  - intros newItems w' (wl & _ & -> & _)%checkForNewItems_inr. split_and!; [done | |].
    + apply sublist_filter.
    + intros ad. rewrite list_elem_of_filter. naive_solver.
  - intros Hok. destruct (checkForNewItems_accepted ads topic w Hok) as (newItems & w' & Hrun & _).
    eauto.
Qed.

(** C4, amended: with a state file that does not parse, a call that returns
    returns every input ad, and the backup then holds the text that was
    read; the call returns when the system accepts its writes; and as soon
    as the write of the backup is accepted, the backup holds that text at
    the end of the call, however the call ends. *)
Theorem detectNew_recovers_from_corrupt_state ads topic w data :
  files w !! filePathOf topic = Some data →
  JSON_parse data = None →
  (∀ newItems w',
     checkForNewItems JSON_parse JSON_stringify ads topic w = (inr newItems, w') →
     newItems = ads ∧ files w' !! backupPathOf topic = Some data)
  ∧ (diskAccepts w →
     ∃ w', checkForNewItems JSON_parse JSON_stringify ads topic w = (inr ads, w'))
  ∧ (nextFault w = None →
     files (checkForNewItems JSON_parse JSON_stringify ads topic w).2 !! backupPathOf topic
     = Some data).
Proof.
  intros Hfile Hparse.
  assert (persistedSeenSet JSON_parse topic w = []) as Hseen
    by (unfold persistedSeenSet; by rewrite Hfile, Hparse).
  assert (nextFault w = None →
          files (checkForNewItems JSON_parse JSON_stringify ads topic w).2 !! backupPathOf topic
          = Some data) as Hbackup.
  { intros Hfault. rewrite checkForNewItems_run, loadSavedAds_run, Hfile, Hparse, Hfault.
    cbv beta iota zeta.
    destruct (filter _ ads) as [| ad rest]; [apply lookup_insert_eq |].
    destruct (nextFault (afterWrite (backupPathOf topic) data w)); [apply lookup_insert_eq |].
    destruct (nextFault (afterWrite (filePathOf topic) _ _));
      cbn [snd popFault afterWrite files].
    - rewrite lookup_insert_ne by (apply not_eq_sym, backupPath_ne_filePath).
      apply lookup_insert_eq.
    - rewrite lookup_insert_ne by apply pushFlag_ne_backupPath.
      rewrite lookup_insert_ne by (apply not_eq_sym, backupPath_ne_filePath).
      apply lookup_insert_eq. }
  split_and!; [| | exact Hbackup].
  - intros newItems w' Hrun.
    destruct (checkForNewItems_inr ads topic w newItems w' Hrun) as (wl & Hload & -> & _).
    rewrite Hseen, filter_not_in_nil. split; [done |].
    rewrite <- Hbackup; [by rewrite Hrun |].
    apply loadSavedAds_inr in Hload as [_ [(d & arr & Hf & Hp & _) | [(d & _ & _ & Hfault & _) | (Hf & _)]]];
      [congruence | done | congruence].
  - intros Hok. destruct (checkForNewItems_accepted ads topic w Hok) as (newItems & w' & Hrun & _).
    destruct (checkForNewItems_inr ads topic w newItems w' Hrun) as (wl & _ & Hnew & _).
    rewrite Hseen, filter_not_in_nil in Hnew. subst newItems. eauto.
Qed.

(** C5: when a call returns new items, the state file holds afterwards the
    loaded set together with the keys of the new items, nothing dropped;
    whatever the outcome of a call, a write of the state file is either the
    empty array for a topic that had no file, or that union; and when no
    input ad is new, a state file that was there is not written. *)
Theorem seen_set_only_grows ads topic w :
  (∀ newItems w',
     checkForNewItems JSON_parse JSON_stringify ads topic w = (inr newItems, w') →
     newItems ≠ [] →
     ∃ written, files w' !! filePathOf topic = Some (JSON_stringify written)
       ∧ EvWrite (filePathOf topic) (JSON_stringify written) ∈ trace w'
       ∧ NoDup written
       ∧ (list_to_set written : gset string)
         = list_to_set (persistedSeenSet JSON_parse topic w)
           ∪ list_to_set (imageUrl <$> newItems))
  ∧ (∃ evs,
       trace (checkForNewItems JSON_parse JSON_stringify ads topic w).2 = trace w ++ evs
       ∧ ∀ state, EvWrite (filePathOf topic) state ∈ evs →
           (state = "[]" ∧ files w !! filePathOf topic = None)
           ∨ ∃ written, state = JSON_stringify written ∧ NoDup written
               ∧ (list_to_set written : gset string)
                 = list_to_set (persistedSeenSet JSON_parse topic w)
                   ∪ list_to_set
                       (imageUrl <$> filter (λ ad, imageUrl ad
                                                   ∉ persistedSeenSet JSON_parse topic w) ads))
  ∧ (filter (λ ad, imageUrl ad ∉ persistedSeenSet JSON_parse topic w) ads = [] →
     is_Some (files w !! filePathOf topic) →
     files (checkForNewItems JSON_parse JSON_stringify ads topic w).2 !! filePathOf topic
     = files w !! filePathOf topic
     ∧ ∃ evs, trace (checkForNewItems JSON_parse JSON_stringify ads topic w).2 = trace w ++ evs
         ∧ ∀ data, EvWrite (filePathOf topic) data ∉ evs).
Proof.
  assert (∀ items : list AdRecord,
            NoDup (foldl (λ s ad, Set_add s (imageUrl ad))
                     (Set_new (persistedSeenSet JSON_parse topic w)) items)
            ∧ (list_to_set (foldl (λ s ad, Set_add s (imageUrl ad))
                              (Set_new (persistedSeenSet JSON_parse topic w)) items)
               : gset string)
              = list_to_set (persistedSeenSet JSON_parse topic w)
                ∪ list_to_set (imageUrl <$> items)) as Hwritten.
  { intros items. split; [apply (NoDup_foldl_Set_add imageUrl items), NoDup_Set_new |].
    apply set_eq. intros y. rewrite elem_of_union, !elem_of_list_to_set.
    rewrite (elem_of_foldl_Set_add imageUrl items
               (Set_new (persistedSeenSet JSON_parse topic w)) y).
    by rewrite elem_of_Set_new. }
  split_and!.
  - intros newItems w' Hrun Hnew.
    destruct (checkForNewItems_inr ads topic w newItems w' Hrun) as (wl & _ & _ & Hw').
    destruct newItems as [| ad rest]; [done |]. subst w'.
    destruct (Hwritten (ad :: rest)) as [Hnodup Hset].
    eexists. split_and!; [| | exact Hnodup | exact Hset].
    + cbn [afterWrite files]. rewrite lookup_insert_ne by apply pushFlag_ne_filePath.
      apply lookup_insert_eq.
    + cbn [afterWrite trace]. rewrite !elem_of_app, !list_elem_of_singleton. left. right.
      reflexivity.
  - destruct (checkForNewItems_trace ads topic w) as (pre & post & Htr & Hpre & Hpost & _).
    exists (pre ++ post). split; [exact Htr |].
    intros state [Hin | Hin]%elem_of_app.
    + left. destruct Hpre as [-> | [-> | [[-> Hfile] | [data ->]]]].
      * by apply elem_of_nil in Hin.
      * apply list_elem_of_singleton in Hin. discriminate Hin.
      * apply elem_of_cons in Hin as [Hin | Hin]; [discriminate Hin |].
        apply list_elem_of_singleton in Hin. by injection Hin as ->.
      * apply list_elem_of_singleton, EvWrite_inj in Hin as [Hp _].
        symmetry in Hp. by destruct (backupPath_ne_filePath topic).
    + right.
      destruct (Hwritten (filter (λ ad, imageUrl ad ∉ persistedSeenSet JSON_parse topic w) ads))
        as [Hnodup Hset].
      destruct Hpost as [[-> _] | [(-> & _) | (-> & _)]].
      * by apply elem_of_nil in Hin.
      * apply list_elem_of_singleton in Hin. injection Hin as ->. eauto.
      * apply elem_of_cons in Hin as [Hin | Hin]; [injection Hin as ->; eauto |].
        apply list_elem_of_singleton, EvWrite_inj in Hin as [Hp _].
        symmetry in Hp. by destruct (pushFlag_ne_filePath topic).
  - intros Hnone [data Hfile].
    rewrite checkForNewItems_run, loadSavedAds_run, Hfile.
    assert (persistedSeenSet JSON_parse topic w = default [] (JSON_parse data)) as Hseen
      by (unfold persistedSeenSet; by rewrite Hfile).
    destruct (JSON_parse data) as [arr |] eqn:Hparse.
    + cbn [default] in Hseen. unfold id in Hseen.
      rewrite filter_new_items, <- Hseen, Hnone.
      split; [exact Hfile |]. exists []. split; [by rewrite app_nil_r |].
      intros d. apply not_elem_of_nil.
    + destruct (nextFault w).
      { split; [exact Hfile |]. exists []. split; [by rewrite app_nil_r |].
        intros d. apply not_elem_of_nil. }
      cbn [default] in Hseen.
      assert (filter (λ ad, Set_has [] (imageUrl ad) = false) ads = []) as ->.
      { rewrite <- Hnone, Hseen. apply (filter_new_items []). }
      cbn [snd afterWrite files trace].
      split.
      * by rewrite lookup_insert_ne by apply backupPath_ne_filePath.
      * exists [EvWrite (backupPathOf topic) data]. split; [done |].
        intros d Hin%list_elem_of_singleton.
        apply (backupPath_ne_filePath topic). congruence.
Qed.

(** C9, amended: when what [JSON.stringify] writes parses back to the same
    array, and two calls in succession on the same topic and the same ads
    both return, the second finds nothing new; the first finds something
    new exactly when some input ad has a key that was not in the seen-set.
    Both calls return when the system accepts their writes. *)
Theorem detectNew_second_run_is_empty ads topic w :
  (∀ arr, JSON_parse (JSON_stringify arr) = Some arr) →
  (∀ newItems w1 again w2,
     checkForNewItems JSON_parse JSON_stringify ads topic w = (inr newItems, w1) →
     checkForNewItems JSON_parse JSON_stringify ads topic w1 = (inr again, w2) →
     again = []
     ∧ (newItems ≠ [] ↔ ∃ ad, ad ∈ ads ∧ imageUrl ad ∉ persistedSeenSet JSON_parse topic w))
  ∧ (diskAccepts w →
     ∃ newItems w1 w2,
       checkForNewItems JSON_parse JSON_stringify ads topic w = (inr newItems, w1)
       ∧ checkForNewItems JSON_parse JSON_stringify ads topic w1 = (inr [], w2)).
Proof.
  intros Hroundtrip.
  assert (∀ newItems w1 again w2,
            checkForNewItems JSON_parse JSON_stringify ads topic w = (inr newItems, w1) →
            checkForNewItems JSON_parse JSON_stringify ads topic w1 = (inr again, w2) →
            again = []
            ∧ (newItems ≠ [] ↔
               ∃ ad, ad ∈ ads ∧ imageUrl ad ∉ persistedSeenSet JSON_parse topic w)) as Hfirst.
  { intros newItems w1 again w2 Hrun1 Hrun2.
    destruct (checkForNewItems_inr ads topic w newItems w1 Hrun1) as (wl & Hload & Hnew & Hw1).
    destruct (checkForNewItems_inr ads topic w1 again w2 Hrun2) as (_ & _ & -> & _).
    split.
    - apply filter_nil_of_Forall. intros ad Hin Hkey. apply Hkey. clear Hkey.
      destruct (decide (imageUrl ad ∈ persistedSeenSet JSON_parse topic w)) as [Hseen | Hfresh].
      + (* the key was known before the first call, and the first call keeps it *)
        destruct newItems as [| ad' rest].
        * subst w1.
          apply loadSavedAds_inr in Hload
            as [_ [(d & arr & Hf & Hp & ->) | [(d & Hf & Hp & _) | (Hf & _)]]];
            [done | |]; unfold persistedSeenSet in Hseen; rewrite Hf, ?Hp in Hseen;
            by apply elem_of_nil in Hseen.
        * subst w1. unfold persistedSeenSet at 1. cbn [afterWrite files].
          rewrite lookup_insert_ne by apply pushFlag_ne_filePath.
          rewrite lookup_insert_eq, Hroundtrip. cbn [default]. unfold id.
          apply (elem_of_foldl_Set_add imageUrl (ad' :: rest)). left.
          by apply elem_of_Set_new.
      + (* the key is new in the first call, which writes it *)
        assert (ad ∈ newItems) as Hin' by (rewrite Hnew; by apply list_elem_of_filter).
        destruct newItems as [| ad' rest]; [by apply elem_of_nil in Hin' |].
        subst w1. unfold persistedSeenSet at 1. cbn [afterWrite files].
        rewrite lookup_insert_ne by apply pushFlag_ne_filePath.
        rewrite lookup_insert_eq, Hroundtrip. cbn [default]. unfold id.
        apply (elem_of_foldl_Set_add imageUrl (ad' :: rest)
                 (Set_new (persistedSeenSet JSON_parse topic w))). right.
        by apply list_elem_of_fmap_2.
    - rewrite Hnew. apply filter_not_nil. }
  split; [exact Hfirst |].
  intros Hok.
  destruct (checkForNewItems_accepted ads topic w Hok) as (newItems & w1 & Hrun1 & Hok1).
  destruct (checkForNewItems_accepted ads topic w1 Hok1) as (again & w2 & Hrun2 & _).
  destruct (Hfirst newItems w1 again w2 Hrun1 Hrun2) as [-> _]. eauto.
Qed.

(** When the sink accepts every request, the loop over the new items sends
    one notification per item, in order. *)
Lemma sendNewItems_all_sent env chatId apiToken newItems w :
  (∀ k, ∃ status statusText body, net env k = Response true status statusText body) →
  ∃ w', sendNewItems env chatId apiToken newItems w = (inr tt, w')
    ∧ trace w' = trace w ++ map (notificationOf chatId apiToken) newItems.
Proof.
  intros Hok. revert w. induction newItems as [| item rest IH]; intros w.
  { exists w. by rewrite app_nil_r. }
  assert (∃ w1, (if truthy (imageUrl item)
                 then sendTelegramPhotoMessage env chatId (imageUrl item) (itemMessage item) apiToken
                 else sendTelegramMessage env chatId (itemMessage item) apiToken) w = (inr tt, w1)
          ∧ trace w1 = trace w ++ [notificationOf chatId apiToken item]) as (w1 & Hsend & Htr).
  { unfold notificationOf.
    destruct (Hok (requests w)) as (st & stt & body & Hnet).
    destruct (truthy (imageUrl item));
      unfold sendTelegramPhotoMessage, sendTelegramMessage, tryCatch, bind, http;
      rewrite Hnet; eexists; (split; [reflexivity | done]). }
  destruct (IH w1) as (w' & Hrest & Htr').
  exists w'. split.
  - simpl. unfold bind at 1. by rewrite Hsend.
  - rewrite Htr', Htr. by rewrite <- app_assoc.
Qed.

(** C10, amended: of two ads of one input list with the same key, a key
    that is not in the seen-set, both are in the result of a call that
    returns; the result is the input filtered against the seen-set loaded
    before the call, and the key is written once, after the filter. When the
    sink accepts the requests, each item of the result is notified, so both
    are. The call returns when the system accepts its writes. *)
Theorem same_key_twice_in_one_batch env chatId apiToken ads topic w l1 a1 l2 a2 l3 :
  ads = l1 ++ a1 :: l2 ++ a2 :: l3 →
  imageUrl a1 = imageUrl a2 →
  imageUrl a1 ∉ persistedSeenSet JSON_parse topic w →
  (∀ newItems w1,
     checkForNewItems JSON_parse JSON_stringify ads topic w = (inr newItems, w1) →
     newItems = filter (λ ad, imageUrl ad ∉ persistedSeenSet JSON_parse topic w) ads
     ∧ (∃ n1 n2 n3, newItems = n1 ++ a1 :: n2 ++ a2 :: n3)
     ∧ (∃ written, files w1 !! filePathOf topic = Some (JSON_stringify written)
          ∧ NoDup written ∧ imageUrl a1 ∈ written)
     ∧ ((∀ k, ∃ status statusText body, net env k = Response true status statusText body) →
        ∃ w2, sendNewItems env chatId apiToken newItems w1 = (inr tt, w2)
          ∧ trace w2 = trace w1 ++ map (notificationOf chatId apiToken) newItems))
  ∧ (diskAccepts w →
     ∃ newItems w1, checkForNewItems JSON_parse JSON_stringify ads topic w = (inr newItems, w1)).
Proof.
  intros -> Hsame Hnew. split.
  - intros newItems w1 Hrun.
    destruct (checkForNewItems_inr _ topic w newItems w1 Hrun) as (wl & _ & Hfilter & Hw1).
    assert (∃ n1 n2 n3, newItems = n1 ++ a1 :: n2 ++ a2 :: n3) as Hboth.
    { rewrite Hfilter.
      rewrite filter_app, filter_cons_True, filter_app, filter_cons_True by congruence.
      eauto. }
    split_and!; [done | done | |].
    + destruct Hboth as (n1 & n2 & n3 & Hsplit).
      destruct newItems as [| ad rest]; [by destruct n1 |]. subst w1.
      eexists. split_and!.
      * cbn [afterWrite files]. rewrite lookup_insert_ne by apply pushFlag_ne_filePath.
        apply lookup_insert_eq.
      * apply (NoDup_foldl_Set_add imageUrl (ad :: rest)), NoDup_Set_new.
      * apply (elem_of_foldl_Set_add imageUrl (ad :: rest)
                 (Set_new (persistedSeenSet JSON_parse topic w))). right.
        apply list_elem_of_fmap_2. rewrite Hsplit, elem_of_app. right. left.
    + intros Hok. by apply sendNewItems_all_sent.
  - intros Hok.
    destruct (checkForNewItems_accepted (l1 ++ a1 :: l2 ++ a2 :: l3) topic w Hok)
      as (newItems & w1 & Hrun & _). eauto.
Qed.

End Detector.

(** ** The reference JSON codec reads back what it writes *)

Module JsonFacts.
Import Json.

Lemma rev_app_rev_app (s t u : string) :
  String.rev_app (String.rev_app s t) u = String.rev_app t (s +:+ u).
Proof.
  revert t u. induction s as [| a s IH]; intros t u; [done |].
  cbn [String.rev_app]. by rewrite IH.
Qed.

Lemma rev_rev_app (s : string) : String.rev (String.rev_app s EmptyString) = s.
Proof. unfold String.rev. rewrite rev_app_rev_app. apply string_app_empty_r. Qed.

(** The escape of one character is read back as that character. *)
Lemma run_escapeChar c cur acc rest :
  run (InString cur) acc (escapeChar c +:+ rest) = run (InString (String c cur)) acc rest.
Proof. destruct c as [[] [] [] [] [] [] [] []]; reflexivity. Qed.

Lemma run_escape s cur acc rest :
  run (InString cur) acc (escape s +:+ rest) = run (InString (String.rev_app s cur)) acc rest.
Proof.
  revert cur. induction s as [| c s IH]; intros cur; [done |].
  cbn [escape]. rewrite string_app_assoc, run_escapeChar. apply IH.
Qed.

Lemma run_quote s acc rest :
  run (InString EmptyString) acc (escape s +:+ chr 34 +:+ rest) = run AfterValue (s :: acc) rest.
Proof.
  rewrite run_escape.
  change (run (InString (String.rev_app s EmptyString)) acc (chr 34 +:+ rest))
    with (run AfterValue (String.rev (String.rev_app s EmptyString) :: acc) rest).
  by rewrite rev_rev_app.
Qed.

Lemma run_items arr acc : run AfterValue acc (items arr) = Some (rev acc ++ arr).
Proof.
  revert acc. induction arr as [| x arr IH]; intros acc.
  - simpl. by rewrite app_nil_r.
  - cbn [items]. unfold quote. rewrite !string_app_assoc.
    change (run AfterValue acc ("," +:+ nl +:+ "  " +:+ chr 34 +:+ escape x +:+ chr 34 +:+ items arr))
      with (run (InString EmptyString) acc (escape x +:+ chr 34 +:+ items arr)).
    rewrite run_quote, IH. simpl. by rewrite <- app_assoc.
Qed.

Lemma parse_stringify arr : parse (stringify arr) = Some arr.
Proof.
  destruct arr as [| x arr]; [reflexivity |].
  unfold parse, stringify, quote. rewrite !string_app_assoc.
  change (run Start [] ("[" +:+ nl +:+ "  " +:+ chr 34 +:+ escape x +:+ chr 34 +:+ items arr))
    with (run (InString EmptyString) [] (escape x +:+ chr 34 +:+ items arr)).
  by rewrite run_quote, run_items.
Qed.

End JsonFacts.


(** ** The change detector on the sample worlds *)

Lemma diskAccepts_no_faults w : diskFaults w = [] → diskAccepts w.
Proof. unfold diskAccepts. intros ->. apply Forall_nil_2. Qed.

(** The scenario of the specification: the topic has seen [imgA]; of the
    ads [imgA] and [imgB] only the second is new, and the file holds both
    keys afterwards. *)
Example detectNew_scenario :
  (checkForNewItems Json.parse Json.stringify [adA; adB] sampleTopic seenWorld).1 = inr [adB]
  ∧ persistedSeenSet Json.parse sampleTopic
      (checkForNewItems Json.parse Json.stringify [adA; adB] sampleTopic seenWorld).2
    = ["imgA"; "imgB"].
Proof. split; reflexivity. Qed.

(** A topic name with a slash on its first run: [mkdir] makes [data], the
    state file would be in [data/a], which does not exist; the write is
    rejected and the call fails. *)
Example detectNew_first_run_in_missing_directory :
  (checkForNewItems Json.parse Json.stringify [adA] "a/b" slashTopicWorld).1
  = inl "Could not read or create ./data/a/b.json"
  ∧ trace (checkForNewItems Json.parse Json.stringify [adA] "a/b" slashTopicWorld).2
    = [EvMkdir "data"]
  ∧ files (checkForNewItems Json.parse Json.stringify [adA] "a/b" slashTopicWorld).2 = ∅.
Proof. split_and!; reflexivity. Qed.

Lemma detectNew_filters_against_loaded_set_witness :
  ∃ w', checkForNewItems Json.parse Json.stringify [adA; adB] sampleTopic seenWorld
        = (inr [adB], w').
Proof.
  destruct (detectNew_filters_against_loaded_set Json.parse Json.stringify [adA; adB]
              sampleTopic seenWorld) as [Hshape Hreturns].
  destruct Hreturns as (newItems & w' & Hrun); [by apply diskAccepts_no_faults |].
  destruct (Hshape newItems w' Hrun) as (Hnew & _).
  exists w'. rewrite Hrun, Hnew. reflexivity.
Defined.

(** C4, as stated, fails when the backup cannot be written: the state file
    does not parse, the system rejects the write of the backup, and the call
    aborts with the error of the outer handler; there is no backup. *)
Lemma detectNew_backup_failure_aborts :
  files corruptReadOnlyWorld !! filePathOf sampleTopic = Some "{not json"
  ∧ Json.parse "{not json" = None
  ∧ (checkForNewItems Json.parse Json.stringify [adA; adB] sampleTopic corruptReadOnlyWorld).1
    = inl "Could not read or create ./data/tel-aviv-2br.json"
  ∧ files (checkForNewItems Json.parse Json.stringify [adA; adB] sampleTopic
             corruptReadOnlyWorld).2 !! backupPathOf sampleTopic = None
  ∧ trace (checkForNewItems Json.parse Json.stringify [adA; adB] sampleTopic
             corruptReadOnlyWorld).2 = [].
Proof. split_and!; reflexivity. Qed.

Lemma detectNew_recovers_from_corrupt_state_witness :
  ∃ w', checkForNewItems Json.parse Json.stringify [adA; adB] sampleTopic corruptWorld
        = (inr [adA; adB], w')
    ∧ files w' !! backupPathOf sampleTopic = Some "{not json".
Proof.
  destruct (detectNew_recovers_from_corrupt_state Json.parse Json.stringify [adA; adB]
              sampleTopic corruptWorld "{not json" eq_refl eq_refl)
    as (Hshape & Hreturns & _).
  destruct Hreturns as [w' Hrun]; [by apply diskAccepts_no_faults |].
  exists w'. split; [exact Hrun |]. by destruct (Hshape _ _ Hrun).
Defined.

(** [seen_set_only_grows] on the sample worlds: with [imgB] new the file is
    rewritten with both keys; with nothing new it is left alone. *)
Lemma seen_set_only_grows_witness :
  (∃ written,
     files (checkForNewItems Json.parse Json.stringify [adA; adB] sampleTopic seenWorld).2
       !! filePathOf sampleTopic = Some (Json.stringify written)
     ∧ (list_to_set written : gset string) = {[ "imgA"; "imgB" ]})
  ∧ files (checkForNewItems Json.parse Json.stringify [adA] sampleTopic seenWorld).2
      !! filePathOf sampleTopic = files seenWorld !! filePathOf sampleTopic.
Proof.
  split.
  - destruct (seen_set_only_grows Json.parse Json.stringify [adA; adB] sampleTopic seenWorld)
      as [Hgrow _].
    destruct (Hgrow [adB]
                (checkForNewItems Json.parse Json.stringify [adA; adB] sampleTopic seenWorld).2
                eq_refl)
      as (written & Hfile & _ & _ & Hset); [discriminate |].
    exists written. split; [exact Hfile |]. rewrite Hset. set_solver.
  - destruct (seen_set_only_grows Json.parse Json.stringify [adA] sampleTopic seenWorld)
      as (_ & _ & Hkeep).
    destruct Hkeep as [Hfile _]; [reflexivity | by eexists |]. exact Hfile.
Defined.

(** C9, as stated, fails when no input ad is new: the topic has seen
    [imgA], and the first of two runs on the ad [imgA] already finds
    nothing. *)
Lemma detectNew_first_run_can_be_empty :
  ¬ ∃ newItems w1 again w2,
      checkForNewItems Json.parse Json.stringify [adA] sampleTopic seenWorld = (inr newItems, w1)
      ∧ checkForNewItems Json.parse Json.stringify [adA] sampleTopic w1 = (inr again, w2)
      ∧ newItems ≠ [] ∧ again = [].
Proof.
  intros (newItems & w1 & again & w2 & Hfirst & _ & Hnonempty & _).
  apply Hnonempty.
  assert ((checkForNewItems Json.parse Json.stringify [adA] sampleTopic seenWorld).1 = inr [])
    as Hrun by reflexivity.
  rewrite Hfirst in Hrun. by injection Hrun.
Qed.

Lemma detectNew_second_run_is_empty_witness :
  ∃ newItems w1 w2,
    checkForNewItems Json.parse Json.stringify [adA; adB] sampleTopic seenWorld = (inr newItems, w1)
    ∧ checkForNewItems Json.parse Json.stringify [adA; adB] sampleTopic w1 = (inr [], w2).
Proof.
  destruct (detectNew_second_run_is_empty Json.parse Json.stringify [adA; adB] sampleTopic
              seenWorld JsonFacts.parse_stringify) as [_ Hreturns].
  by apply Hreturns, diskAccepts_no_faults.
Defined.

(** C10, as stated, fails when the sink rejects a request: the page has two
    ads without image, both are new on the topic's first run and the key is
    saved, but the send for the first is rejected, the loop stops, and no
    request is made for the second. *)
Lemma same_key_second_ad_not_notified :
  extractAdDetails imagelessPage = inr [extractAd itemBare; extractAd itemBare2]
  ∧ imageUrl (extractAd itemBare) = imageUrl (extractAd itemBare2)
  ∧ (checkForNewItems Json.parse Json.stringify [extractAd itemBare; extractAd itemBare2]
       sampleTopic emptyWorld).1
    = inr [extractAd itemBare; extractAd itemBare2]
  ∧ imagelessRun.1 = inl "Failed to send message: Too Many Requests"
  ∧ trace imagelessRun.2
    = [EvGet listingUrl; EvMkdir "data"; EvWrite (filePathOf sampleTopic) "[]";
       EvWrite (filePathOf sampleTopic) (Json.stringify [EmptyString]);
       EvWrite pushFlag EmptyString;
       notificationOf "CHAT" "TOKEN" (extractAd itemBare)]
  ∧ persistedSeenSet Json.parse sampleTopic imagelessRun.2 = [EmptyString].
Proof. split_and!; reflexivity. Qed.

Lemma same_key_twice_in_one_batch_witness :
  ∃ newItems w1 w2,
    checkForNewItems Json.parse Json.stringify [adNoImage1; adNoImage2] sampleTopic emptyWorld
    = (inr newItems, w1)
    ∧ newItems = [adNoImage1; adNoImage2]
    ∧ sendNewItems (envUp EmptyString) "CHAT" "TOKEN" newItems w1 = (inr tt, w2)
    ∧ trace w2 = trace w1 ++ map (notificationOf "CHAT" "TOKEN") newItems.
Proof.
  destruct (same_key_twice_in_one_batch Json.parse Json.stringify (envUp EmptyString)
              "CHAT" "TOKEN" [adNoImage1; adNoImage2] sampleTopic emptyWorld
              [] adNoImage1 [] adNoImage2 [] eq_refl eq_refl) as [Hshape Hreturns].
  { vm_compute. apply not_elem_of_nil. }
  destruct Hreturns as (newItems & w1 & Hrun); [by apply diskAccepts_no_faults |].
  destruct (Hshape newItems w1 Hrun) as (Hnew & _ & _ & Hsend).
  destruct Hsend as (w2 & Hs & Htr); [intros k; by eexists _, _, _ |].
  exists newItems, w1, w2. split_and!; [done | | done | done].
  rewrite Hnew. reflexivity.
Defined.
(** ** Orchestrator *)

(** C6, as stated, fails on the topic name: the page is the bot challenge,
    the stages fail, and no notification that is sent names the topic. *)
Lemma failure_text_lacks_topic :
  (scrapeStages (λ _, botPage) Json.parse Json.stringify (envUp "<html>") "CHAT" "TOKEN"
     sampleTopic listingUrl emptyWorld).1 = inl botDetectedMessage
  ∧ ¬ ∃ url chat text,
        EvPost url (TextPayload chat text)
        ∈ trace (scrape (λ _, botPage) Json.parse Json.stringify sampleConfig sampleProcessEnv
                   (envUp "<html>") sampleTopic listingUrl emptyWorld).2
        ∧ includes text sampleTopic = true.
Proof.
  split; [reflexivity |].
  intros (url & chat & text & Hin & Hinc).
  assert (trace (scrape (λ _, botPage) Json.parse Json.stringify sampleConfig sampleProcessEnv
                   (envUp "<html>") sampleTopic listingUrl emptyWorld).2
          = [EvGet listingUrl;
             EvPost "https://api.telegram.org/botTOKEN/sendMessage"
               (TextPayload "CHAT" (failureText botDetectedMessage))]) as Htrace by reflexivity.
  rewrite Htrace in Hin.
  apply elem_of_cons in Hin as [Hin | Hin]; [discriminate |].
  apply list_elem_of_singleton in Hin. injection Hin as _ _ ->.
  vm_compute in Hinc. discriminate.
Qed.

(** C6, amended: when the stages of a topic fail with an error, [scrape]
    sends after the failure one request, a text message to the configured
    chat, and its text contains the error message. *)
Theorem failure_is_reported_once
    (cheerio_load : string → Document) (JSON_parse : string → option (list string))
    (JSON_stringify : list string → string)
    config process_env env topic url w token chat e w1 :
  js_or_else (API_TOKEN process_env) (telegramApiToken config) = Some token →
  js_or_else (CHAT_ID process_env) (chatId config) = Some chat →
  truthy token = true →
  truthy chat = true →
  scrapeStages cheerio_load JSON_parse JSON_stringify env chat token topic url w = (inl e, w1) →
  ∃ r w2,
    scrape cheerio_load JSON_parse JSON_stringify config process_env env topic url w = (r, w2)
    ∧ trace w2
      = trace w1 ++ [EvPost ("https://api.telegram.org/bot" +:+ token +:+ "/sendMessage")
                       (TextPayload chat (failureText e))]
    ∧ includes (failureText e) e = true.
Proof.
  intros Htoken Hchat Ht Hc Hfail.
  unfold scrape. rewrite Htoken, Hchat, Ht, Hc. cbn [andb].
  unfold tryCatch. rewrite Hfail.
  eexists _, _. split; [apply surjective_pairing |]. split.
  - unfold sendTelegramMessage, tryCatch, bind.
    pose proof (http_trace env (EvPost ("https://api.telegram.org/bot" +:+ token +:+ "/sendMessage")
                                  (TextPayload chat (failureText e))) w1) as Htr.
    destruct (http env _ w1) as [[m | [m | [] st stt body]] w2]; exact Htr.
  - unfold failureText, js_or. destruct e as [| c e']; [reflexivity |].
    cbn [truthy]. rewrite <- !string_app_assoc. apply includes_suffix.
Qed.

Lemma failure_is_reported_once_witness :
  ∃ r w2,
    scrape (λ _, botPage) Json.parse Json.stringify sampleConfig sampleProcessEnv
      (envUp "<html>") sampleTopic listingUrl emptyWorld = (r, w2)
    ∧ trace w2
      = [EvGet listingUrl]
        ++ [EvPost "https://api.telegram.org/botTOKEN/sendMessage"
              (TextPayload "CHAT" (failureText botDetectedMessage))]
    ∧ includes (failureText botDetectedMessage) botDetectedMessage = true.
Proof.
  exact (failure_is_reported_once (λ _, botPage) Json.parse Json.stringify sampleConfig
           sampleProcessEnv (envUp "<html>") sampleTopic listingUrl emptyWorld "TOKEN" "CHAT"
           botDetectedMessage
           (scrapeStages (λ _, botPage) Json.parse Json.stringify (envUp "<html>") "CHAT" "TOKEN"
              sampleTopic listingUrl emptyWorld).2
           eq_refl eq_refl eq_refl eq_refl eq_refl).
Defined.

(** * Further properties of the code *)

(** ** Resilient fetcher *)

(** What one pass of the [try] block does to the world. *)
Lemma attemptFetch_cases env url startTime maxTimeout w :
  files (attemptFetch env url startTime maxTimeout w).2 = files w
  ∧ clockReads (attemptFetch env url startTime maxTimeout w).2 = S (clockReads w)
  ∧ ((trace (attemptFetch env url startTime maxTimeout w).2 = trace w
      ∧ requests (attemptFetch env url startTime maxTimeout w).2 = requests w
      ∧ ∃ e, (attemptFetch env url startTime maxTimeout w).1 = inl e)
     ∨ (trace (attemptFetch env url startTime maxTimeout w).2 = trace w ++ [EvGet url]
        ∧ requests (attemptFetch env url startTime maxTimeout w).2 = S (requests w)
        ∧ match net env (requests w) with
          | Response true _ _ body => (attemptFetch env url startTime maxTimeout w).1 = inr body
          | _ => ∃ e, (attemptFetch env url startTime maxTimeout w).1 = inl e
          end)).
Proof.
  unfold attemptFetch, bind, Date_now; simpl.
  destruct (_ >? _); simpl.
  { split; [done |]. split; [done |]. left. eauto. }
  unfold http; simpl.
  destruct (net env (requests w)) as [m | [] st stt body]; simpl;
    (split; [done |]; split; [done |]; right; eauto).
Qed.

(** The shape of every run of the loop: what it adds to the trace, what it
    leaves alone, and how it can end. *)
Lemma fetchLoop_shape env url startTime maxTimeout retries w :
  ∃ evs,
    trace (fetchLoop env url startTime maxTimeout retries w).2 = trace w ++ evs
    ∧ files (fetchLoop env url startTime maxTimeout retries w).2 = files w
    ∧ (length (getsOf evs) ≤ retries)%nat
    ∧ (length (sleepsOf evs) ≤ retries - 1)%nat
    ∧ Forall (λ e, e = EvGet url ∨ ∃ ms, e = EvSleep ms) evs
    ∧ requests (fetchLoop env url startTime maxTimeout retries w).2
      = (requests w + length (getsOf evs))%nat
    ∧ (∀ e, (fetchLoop env url startTime maxTimeout retries w).1 = inl e →
         e = match retries with
             | O => "Failed to fetch Yad2 response"
             | S _ => "Network error occurred after multiple retries"
             end)
    ∧ (∀ body, (fetchLoop env url startTime maxTimeout retries w).1 = inr body →
         ∃ k status statusText,
           requests (fetchLoop env url startTime maxTimeout retries w).2 = S k
           ∧ (requests w ≤ k)%nat
           ∧ net env k = Response true status statusText body).
Proof.
  revert w. induction retries as [| r IH]; intros w.
  { exists []. simpl. rewrite app_nil_r. split_and!; try done.
    by intros e [= <-]. }
  rewrite fetchLoop_S. unfold tryCatch.
  destruct (attemptFetch_cases env url startTime maxTimeout w) as (Hf & _ & Hcase).
  destruct (attemptFetch env url startTime maxTimeout w) as [[e | body] w1] eqn:Hat;
    cbn [fst snd] in *.
  2:{ (* the pass succeeds *)
    destruct Hcase as [(_ & _ & e & He) | (Htr & Hreq & Hnet)]; [done |].
    exists [EvGet url]. split_and!.
    - done.
    - done.
    - cbn. lia.
    - cbn. lia.
    - constructor; [by left | constructor].
    - cbn. lia.
    - done.
    - intros body' [= <-]. exists (requests w).
      destruct (net env (requests w)) as [m | [] st stt body']; try (by destruct Hnet).
      injection Hnet as <-. eauto. }
  assert (∃ pre, trace w1 = trace w ++ pre
                 ∧ (length (getsOf pre) ≤ 1)%nat ∧ sleepsOf pre = []
                 ∧ Forall (λ e, e = EvGet url ∨ ∃ ms, e = EvSleep ms) pre
                 ∧ requests w1 = (requests w + length (getsOf pre))%nat)
    as (pre & Hpre & Hgets & Hsl & Hall & Hreq).
  { destruct Hcase as [(Htr & Hreq & _) | (Htr & Hreq & _)].
    - exists []. rewrite app_nil_r. cbn. split_and!; try done; lia.
    - exists [EvGet url]. cbn. split_and!; try done; try lia.
      constructor; [by left | constructor]. }
  destruct r as [| r'].
  { exists pre. cbn [fst snd throw]. rewrite Hsl. split_and!; try done.
    by intros e' [= <-]. }
  unfold bind, sleep; cbn [fst snd].
  destruct (IH (emit (EvSleep (backoffDelay (3 - Z.of_nat (S r')))) w1))
    as (evs & Hevs & Hfiles & Hg & Hs & Hall' & Hreq' & Herr & Hok).
  exists (pre ++ EvSleep (backoffDelay (3 - Z.of_nat (S r'))) :: evs).
  unfold getsOf, sleepsOf in *. rewrite !omap_app, !length_app. cbn [omap list_omap].
  rewrite Hsl. cbn [length app].
  split_and!.
  - rewrite Hevs. cbn. rewrite Hpre. by rewrite <- !app_assoc.
  - rewrite Hfiles. cbn. done.
  - lia.
  - lia.
  - apply Forall_app. split; [done |]. constructor; [right; eauto | done].
  - rewrite Hreq'. cbn. rewrite Hreq. lia.
  - intros e' He'. by rewrite (Herr e' He').
  - intros body Hbody. destruct (Hok body Hbody) as (k & st & stt & Hk & Hle & Hnet).
    exists k, st, stt. cbn in Hle. split_and!; [done | lia | done].
Qed.

(** X1: a failed fetch never tells its cause: whatever went wrong (HTTP
    status, network error, ceiling), the caller sees the exhaustion message
    when [retries] is positive and the fall-through message otherwise; the
    timeout message never leaves the function. *)
Theorem getYad2Response_failure_messages env url retries maxTimeout w e w' :
  getYad2Response env url retries maxTimeout w = (inl e, w') →
  (0 < retries → e = "Network error occurred after multiple retries")
  ∧ (retries ≤ 0 → e = "Failed to fetch Yad2 response")
  ∧ e ≠ "Maximum timeout reached while trying to fetch URL".
Proof.
  unfold getYad2Response, bind, Date_now. cbn [fst snd].
  intros Hrun.
  match type of Hrun with fetchLoop _ _ ?s _ ?n ?w1 = _ =>
    destruct (fetchLoop_shape env url s maxTimeout n w1) as (evs & _ & _ & _ & _ & _ & _ & Herr & _) end.
  rewrite Hrun in Herr. specialize (Herr e eq_refl).
  destruct (Z.to_nat retries) as [| n] eqn:Hn; subst e; split_and!; try done; lia.
Qed.

Lemma getYad2Response_failure_messages_witness :
  (getYad2Response envDown listingUrl defaultRetries defaultMaxTimeout emptyWorld).1
  = inl "Network error occurred after multiple retries".
Proof.
  destruct (getYad2Response_failure_messages envDown listingUrl defaultRetries defaultMaxTimeout
              emptyWorld "Network error occurred after multiple retries"
              (getYad2Response envDown listingUrl defaultRetries defaultMaxTimeout emptyWorld).2
              eq_refl) as (H & _ & _).
  reflexivity.
Defined.

(** X2: a fetch sends at most [retries] requests, all to [url], sleeps at
    most [retries - 1] times, does nothing else, and leaves the files
    alone. *)
Theorem getYad2Response_effort_bounded env url retries maxTimeout w :
  ∃ evs,
    trace (getYad2Response env url retries maxTimeout w).2 = trace w ++ evs
    ∧ files (getYad2Response env url retries maxTimeout w).2 = files w
    ∧ (length (getsOf evs) ≤ Z.to_nat retries)%nat
    ∧ (length (sleepsOf evs) ≤ Z.to_nat retries - 1)%nat
    ∧ Forall (λ e, e = EvGet url ∨ ∃ ms, e = EvSleep ms) evs.
Proof.
  unfold getYad2Response, bind, Date_now. cbn [fst snd].
  match goal with |- context [fetchLoop _ _ ?s _ ?n ?w1] =>
    destruct (fetchLoop_shape env url s maxTimeout n w1)
      as (evs & Htr & Hfiles & Hg & Hs & Hall & _) end.
  exists evs. by split_and!.
Qed.

(** X3: the text a fetch returns is the body of the successful response to
    the last request it sent. *)
Theorem getYad2Response_returns_last_response env url retries maxTimeout w body w' :
  getYad2Response env url retries maxTimeout w = (inr body, w') →
  ∃ k status statusText,
    requests w' = S k ∧ (requests w ≤ k)%nat
    ∧ net env k = Response true status statusText body.
Proof.
  unfold getYad2Response, bind, Date_now. cbn [fst snd].
  intros Hrun.
  match type of Hrun with fetchLoop _ _ ?s _ ?n ?w1 = _ =>
    destruct (fetchLoop_shape env url s maxTimeout n w1) as (evs & _ & _ & _ & _ & _ & _ & _ & Hok) end.
  rewrite Hrun in Hok. exact (Hok body eq_refl).
Qed.

Lemma getYad2Response_returns_last_response_witness :
  ∃ k status statusText,
    requests (getYad2Response (envUp "<html>") listingUrl defaultRetries defaultMaxTimeout
                emptyWorld).2 = S k
    ∧ (requests emptyWorld ≤ k)%nat
    ∧ net (envUp "<html>") k = Response true status statusText "<html>".
Proof.
  exact (getYad2Response_returns_last_response (envUp "<html>") listingUrl defaultRetries
           defaultMaxTimeout emptyWorld "<html>" _ eq_refl).
Defined.

(** X4: the backoff law of the code: in a call with [retries] retries the
    sleep number [i + 1] lasts [2 ^ (3 - retries + i + 1)] seconds as
    [backoffDelay] computes it in double precision (0 once the power
    underflows); the exponent counts from the literal 3, not from
    [retries]. *)
Theorem backoff_delay_law env url retries maxTimeout w :
  ∃ evs,
    trace (getYad2Response env url retries maxTimeout w).2 = trace w ++ evs
    ∧ ∀ i d, sleepsOf evs !! i = Some d →
        d = backoffDelay (3 - retries + Z.of_nat i + 1).
Proof.
  unfold getYad2Response, bind, Date_now. cbn [fst snd].
  match goal with |- context [fetchLoop _ _ ?s _ ?n ?w1] =>
    destruct (fetchLoop_delays env url s maxTimeout n w1) as (evs & Hevs & Hd);
    destruct (fetchLoop_shape env url s maxTimeout n w1) as (evs' & Hevs' & _ & _ & Hs & _) end.
  rewrite Hevs in Hevs'. apply app_inv_head in Hevs'. subst evs'.
  exists evs. split; [exact Hevs |].
  intros i d Hi. rewrite (Hd i d Hi).
  apply lookup_lt_Some in Hi. f_equal. lia.
Qed.

(** X5: with the default arguments a fetch sends at most three requests
    and sleeps at most twice, 2 s and then 4 s. *)
Theorem default_fetch_budget env url w :
  ∃ evs,
    trace (getYad2Response env url defaultRetries defaultMaxTimeout w).2 = trace w ++ evs
    ∧ (length (getsOf evs) ≤ 3)%nat
    ∧ sleepsOf evs `prefix_of` [2000 # 1; 4000 # 1]%Q.
Proof.
  unfold getYad2Response, bind, Date_now. cbn [fst snd].
  match goal with |- context [fetchLoop _ _ ?s _ ?n ?w1] =>
    destruct (fetchLoop_delays env url s defaultMaxTimeout n w1) as (evs & Hevs & Hd);
    destruct (fetchLoop_shape env url s defaultMaxTimeout n w1)
      as (evs' & Hevs' & _ & Hg & Hs & _) end.
  rewrite Hevs in Hevs'. apply app_inv_head in Hevs'. subst evs'.
  exists evs. split; [exact Hevs |]. split; [exact Hg |].
  change (Z.to_nat defaultRetries) with 3%nat in *.
  destruct (sleepsOf evs) as [| d0 [| d1 [| d2 rest]]]; cbn in Hs.
  - by exists [2000 # 1; 4000 # 1]%Q.
  - rewrite (Hd 0%nat d0 eq_refl). by exists [4000 # 1]%Q.
  - rewrite (Hd 0%nat d0 eq_refl), (Hd 1%nat d1 eq_refl). by exists [].
  - lia.
Qed.

(** X6: a pass of the loop that starts after the ceiling sends nothing; if
    the clock does not run backwards, neither does any later pass, yet the
    loop sleeps through every remaining backoff delay before it fails with
    the exhaustion message. *)
Theorem no_request_after_the_ceiling env url startTime maxTimeout retries w :
  (∀ i j, (i ≤ j)%nat → clock env i ≤ clock env j) →
  clock env (clockReads w) - startTime > maxTimeout →
  ∃ w' evs,
    fetchLoop env url startTime maxTimeout (S retries) w
    = (inl "Network error occurred after multiple retries", w')
    ∧ trace w' = trace w ++ evs
    ∧ getsOf evs = []
    ∧ length (sleepsOf evs) = retries
    ∧ requests w' = requests w.
Proof.
  intros Hmono. revert w. induction retries as [| r IH]; intros w Hlate.
  - rewrite fetchLoop_S. unfold tryCatch.
    destruct (attemptFetch_timeout env url startTime maxTimeout w Hlate) as (w1 & Hat & Htr & Hck).
    destruct (attemptFetch_cases env url startTime maxTimeout w) as (_ & _ & Hcase).
    rewrite Hat in Hcase |- *. cbn [fst snd] in Hcase.
    exists w1, []. rewrite app_nil_r. split_and!; try done.
    destruct Hcase as [(_ & Hreq & _) | (Htr' & _)]; [done |].
    rewrite Htr in Htr'. apply (f_equal length) in Htr'.
    rewrite length_app in Htr'. cbn in Htr'. lia.
  - rewrite fetchLoop_S. unfold tryCatch.
    destruct (attemptFetch_timeout env url startTime maxTimeout w Hlate) as (w1 & Hat & Htr & Hck).
    destruct (attemptFetch_cases env url startTime maxTimeout w) as (_ & _ & Hcase).
    rewrite Hat in Hcase |- *. cbn [fst snd] in Hcase.
    assert (requests w1 = requests w) as Hreq.
    { destruct Hcase as [(_ & Hreq & _) | (Htr' & _)]; [done |].
      rewrite Htr in Htr'. apply (f_equal length) in Htr'.
      rewrite length_app in Htr'. cbn in Htr'. lia. }
    unfold bind, sleep. cbn [fst snd].
    destruct (IH (emit (EvSleep (backoffDelay (3 - Z.of_nat (S r)))) w1))
      as (w' & evs & Hrun & Hevs & Hg & Hs & Hreq').
    { cbn. rewrite Hck. specialize (Hmono (clockReads w) (S (clockReads w))). lia. }
    exists w', (EvSleep (backoffDelay (3 - Z.of_nat (S r))) :: evs).
    rewrite Hrun. split_and!.
    + done.
    + rewrite Hevs. cbn. rewrite Htr. by rewrite <- app_assoc.
    + done.
    + change (S (length (sleepsOf evs)) = S r). by rewrite Hs.
    + rewrite Hreq'. cbn. done.
Qed.

Lemma no_request_after_the_ceiling_witness :
  ∃ w' evs,
    fetchLoop envSlow listingUrl 0 defaultMaxTimeout 2
      {| files := ∅; clockReads := 2; requests := 1; trace := []; diskFaults := [] |}
    = (inl "Network error occurred after multiple retries", w')
    ∧ trace w' = [] ++ evs
    ∧ getsOf evs = []
    ∧ length (sleepsOf evs) = 1%nat
    ∧ requests w' = 1%nat.
Proof.
  apply (no_request_after_the_ceiling envSlow listingUrl 0 defaultMaxTimeout 1
           {| files := ∅; clockReads := 2; requests := 1; trace := []; diskFaults := [] |}).
  - intros i j Hij. unfold envSlow, clock.
    destruct i as [| [| [| i]]], j as [| [| [| j]]]; lia.
  - vm_compute. reflexivity.
Defined.

(** ** Listing extractor *)

Lemma resolveFeedItems_inv doc selectors feedItems nodes :
  resolveFeedItems doc selectors feedItems = Some nodes →
  nodes ≠ [] →
  (feedItems = Some nodes ∧ Forall (λ s, select doc s = []) selectors)
  ∨ ∃ pre sel post,
      selectors = pre ++ sel :: post ∧ nodes = select doc sel
      ∧ Forall (λ s, select doc s = []) pre.
Proof.
  revert feedItems. induction selectors as [| s rest IH]; intros feedItems Hres Hne.
  { left. by split. }
  cbn [resolveFeedItems] in Hres.
  destruct (select doc s) as [| n ns] eqn:Hsel; cbn in Hres.
  - destruct (IH _ Hres Hne) as [[[= <-] _] | (pre & sel & post & -> & -> & Hpre)]; [done |].
    right. exists (s :: pre), sel, post. split_and!; [done | done |]. by constructor.
  - injection Hres as <-. right. exists [], s, rest. by split_and!.
Qed.

Lemma extractAdDetails_inr doc adDetails :
  extractAdDetails doc = inr adDetails →
  text (first (select doc sel_title)) ≠ captchaTitle
  ∧ select doc sel_item ≠ []
  ∧ adDetails = map extractAd (select doc sel_item).
Proof.
  unfold extractAdDetails.
  destruct (String.eqb_spec (text (first (select doc sel_title))) captchaTitle); [done |].
  rewrite resolveFeedItems_default.
  destruct (select doc sel_item) as [| elm elms]; [done |]. by intros [= <-].
Qed.

Lemma fullLink_empty_or_absolute elm :
  fullLink (extractAd elm) = EmptyString
  ∨ String.prefix baseUrl (fullLink (extractAd elm)) = true.
Proof.
  unfold extractAd. cbn [fullLink].
  destruct (attr (find elm sel_link) "href") as [[| c l] |]; [by left | | by left].
  right. cbn [truthy]. unfold js_or.
  change (truthy (baseUrl +:+ String c l)) with true. cbn iota. apply prefix_app.
Qed.

(** X7: the selector loop stops at the first selector that matches
    something: a non-empty selection it returns is the selection of one of
    the selectors, and every selector before that one matched nothing. *)
Theorem resolveFeedItems_first_match doc selectors nodes :
  resolveFeedItems doc selectors None = Some nodes →
  nodes ≠ [] →
  ∃ pre sel post,
    selectors = pre ++ sel :: post ∧ nodes = select doc sel
    ∧ Forall (λ s, select doc s = []) pre.
Proof.
  intros Hres Hne.
  by destruct (resolveFeedItems_inv doc selectors None nodes Hres Hne) as [[? _] | ?].
Qed.

Lemma resolveFeedItems_first_match_witness :
  ∃ pre sel post,
    [{| selName := Some "article"; selAttr := None |}; sel_item; sel_price]
    = pre ++ sel :: post
    ∧ [itemBare] = select botPage sel
    ∧ Forall (λ s, select botPage s = []) pre.
Proof.
  apply (resolveFeedItems_first_match botPage
           [{| selName := Some "article"; selAttr := None |}; sel_item; sel_price] [itemBare]).
  - reflexivity.
  - discriminate.
Defined.

(** X8: a page that is not the bot challenge and has no item node makes
    the extraction fail with the no-items error: the extraction never
    returns an empty list. *)
Theorem extraction_fails_without_items doc :
  text (first (select doc sel_title)) ≠ captchaTitle →
  select doc sel_item = [] →
  extractAdDetails doc = inl noItemsMessage.
Proof.
  intros Htitle Hnone. unfold extractAdDetails.
  destruct (String.eqb_spec (text (first (select doc sel_title))) captchaTitle); [done |].
  by rewrite resolveFeedItems_default, Hnone.
Qed.

Lemma extraction_fails_without_items_witness :
  extractAdDetails emptyPage = inl noItemsMessage.
Proof. apply extraction_fails_without_items; [discriminate | reflexivity]. Defined.

(** X9: a successful extraction returns a non-empty list, one record per
    item node of a page that is not the bot challenge, and the link of
    every record is empty or starts with the origin of the site. *)
Theorem extraction_success_shape doc adDetails :
  extractAdDetails doc = inr adDetails →
  adDetails ≠ []
  ∧ text (first (select doc sel_title)) ≠ captchaTitle
  ∧ adDetails = map extractAd (select doc sel_item)
  ∧ Forall (λ ad, fullLink ad = EmptyString ∨ String.prefix baseUrl (fullLink ad) = true)
      adDetails.
Proof.
  intros (Htitle & Hitems & ->)%extractAdDetails_inr. split_and!; [| done | done |].
  - by destruct (select doc sel_item).
  - apply Forall_fmap, Forall_forall. intros elm _. apply fullLink_empty_or_absolute.
Qed.

Lemma extraction_success_shape_witness :
  ∃ adDetails, extractAdDetails listingPage = inr adDetails
    ∧ length adDetails = 2%nat
    ∧ Forall (λ ad, fullLink ad = EmptyString ∨ String.prefix baseUrl (fullLink ad) = true)
        adDetails.
Proof.
  eexists. split; [reflexivity |].
  destruct (extraction_success_shape listingPage _ eq_refl) as (_ & _ & _ & Hlinks).
  split; [reflexivity | exact Hlinks].
Defined.

Lemma scrapeItemsAndExtractAdDetails_world (cheerio_load : string → Document) env url w :
  (scrapeItemsAndExtractAdDetails cheerio_load env url w).2
  = (getYad2Response env url defaultRetries defaultMaxTimeout w).2.
Proof.
  unfold scrapeItemsAndExtractAdDetails, bind.
  destruct (getYad2Response env url defaultRetries defaultMaxTimeout w) as [[e | html] w1];
    [done |].
  by destruct (extractAdDetails (cheerio_load html)).
Qed.

(** X10: scraping a listing page costs at most three requests, all to the
    listing URL, and two sleeps; it posts nothing and writes no file. *)
Theorem scrapeItemsAndExtractAdDetails_effects (cheerio_load : string → Document) env url w :
  ∃ evs,
    trace (scrapeItemsAndExtractAdDetails cheerio_load env url w).2 = trace w ++ evs
    ∧ files (scrapeItemsAndExtractAdDetails cheerio_load env url w).2 = files w
    ∧ (length (getsOf evs) ≤ 3)%nat
    ∧ (length (sleepsOf evs) ≤ 2)%nat
    ∧ Forall (λ e, e = EvGet url ∨ ∃ ms, e = EvSleep ms) evs.
Proof.
  rewrite scrapeItemsAndExtractAdDetails_world.
  unfold getYad2Response, bind, Date_now. cbn [fst snd].
  match goal with |- context [fetchLoop _ _ ?s _ ?n ?w1] =>
    destruct (fetchLoop_shape env url s defaultMaxTimeout n w1)
      as (evs & Htr & Hfiles & Hg & Hs & Hall & _) end.
  exists evs. by split_and!.
Qed.

(** X11: the records a scrape returns are extracted from the body of the
    successful response to the last request it sent; a failed fetch or a
    failed extraction fails the scrape. *)
Theorem scrapeItemsAndExtractAdDetails_source (cheerio_load : string → Document)
    env url w adDetails w' :
  scrapeItemsAndExtractAdDetails cheerio_load env url w = (inr adDetails, w') →
  ∃ k status statusText yad2Html,
    requests w' = S k
    ∧ net env k = Response true status statusText yad2Html
    ∧ getYad2Response env url defaultRetries defaultMaxTimeout w = (inr yad2Html, w')
    ∧ extractAdDetails (cheerio_load yad2Html) = inr adDetails.
Proof.
  unfold scrapeItemsAndExtractAdDetails, bind.
  destruct (getYad2Response env url defaultRetries defaultMaxTimeout w) as [[e | html] w1] eqn:Hget;
    [done |].
  destruct (extractAdDetails (cheerio_load html)) as [e | ads] eqn:Hx; [done |].
  intros [= <- <-].
  revert Hget. unfold getYad2Response, bind, Date_now. cbn [fst snd]. intros Hget.
  match type of Hget with fetchLoop _ _ ?s _ ?n ?w0 = _ =>
    destruct (fetchLoop_shape env url s defaultMaxTimeout n w0)
      as (evs & _ & _ & _ & _ & _ & _ & _ & Hok) end.
  rewrite Hget in Hok. destruct (Hok html eq_refl) as (k & st & stt & Hk & _ & Hnet).
  exists k, st, stt, html. by split_and!.
Qed.

Lemma scrapeItemsAndExtractAdDetails_source_witness :
  ∃ k status statusText yad2Html,
    requests (scrapeItemsAndExtractAdDetails (λ _, listingPage) (envUp "<html>") listingUrl
                emptyWorld).2 = S k
    ∧ net (envUp "<html>") k = Response true status statusText yad2Html
    ∧ getYad2Response (envUp "<html>") listingUrl defaultRetries defaultMaxTimeout emptyWorld
      = (inr yad2Html,
         (scrapeItemsAndExtractAdDetails (λ _, listingPage) (envUp "<html>") listingUrl
            emptyWorld).2)
    ∧ extractAdDetails listingPage = inr (map extractAd [itemFull; itemBare]).
Proof.
  exact (scrapeItemsAndExtractAdDetails_source (λ _, listingPage) (envUp "<html>") listingUrl
           emptyWorld (map extractAd [itemFull; itemBare]) _ eq_refl).
Defined.


(** ** Change detector: state, trace and composition *)

Section DetectorExtras.

Context (JSON_parse : string → option (list string)).
Context (JSON_stringify : list string → string).

Lemma foldl_Set_add_fmap {A} (key : A → string) (l : list A) s :
  foldl (λ s a, Set_add s (key a)) s l = foldl Set_add s (key <$> l).
Proof. revert s. induction l as [| a l IH]; intros s; [done |]. cbn. apply IH. Qed.

(** A run on ads that are all known, with a state file that parses, returns
    nothing in the world it started in. *)
Lemma checkForNewItems_all_known ads topic w data arr :
  files w !! filePathOf topic = Some data →
  JSON_parse data = Some arr →
  (∀ ad, ad ∈ ads → imageUrl ad ∈ arr) →
  checkForNewItems JSON_parse JSON_stringify ads topic w = (inr [], w).
Proof.
  intros Hfile Hparse Hknown.
  rewrite checkForNewItems_run, loadSavedAds_run, Hfile, Hparse. cbv beta iota.
  rewrite filter_new_items.
  rewrite (filter_nil_of_Forall (λ ad, imageUrl ad ∉ arr) ads); [done |].
  intros ad Hin Hn. by apply Hn, Hknown.
Qed.

(** The seen-set on disk after a run that returns, for a codec that reads
    back what it writes. *)
Lemma seen_after_run ads topic w newItems w' k :
  (∀ arr, JSON_parse (JSON_stringify arr) = Some arr) →
  JSON_parse "[]" = Some [] →
  checkForNewItems JSON_parse JSON_stringify ads topic w = (inr newItems, w') →
  k ∈ persistedSeenSet JSON_parse topic w'
  ↔ k ∈ persistedSeenSet JSON_parse topic w ∨ k ∈ imageUrl <$> ads.
Proof.
  intros Hroundtrip Hempty Hrun.
  destruct (checkForNewItems_inr JSON_parse JSON_stringify ads topic w newItems w' Hrun)
    as (wl & Hload & Hnew & Hw').
  destruct newItems as [| ad rest].
  - subst w'.
    assert (∀ ad, ad ∈ ads → imageUrl ad ∈ persistedSeenSet JSON_parse topic w) as Hknown.
    { intros ad Hin.
      destruct (decide (imageUrl ad ∈ persistedSeenSet JSON_parse topic w)) as [| Hn]; [done |].
      symmetry in Hnew. by destruct (filter_nil_not_elem_of _ _ ad Hnew Hn). }
    assert (persistedSeenSet JSON_parse topic wl = persistedSeenSet JSON_parse topic w) as ->.
    { apply loadSavedAds_inr in Hload
        as [_ [(d & arr & Hf & Hp & ->) | [(d & Hf & Hp & _ & ->) | (Hf & _ & ->)]]];
        [done | |]; unfold persistedSeenSet; cbn [afterWrite afterMkdir files].
      - by rewrite lookup_insert_ne by apply backupPath_ne_filePath.
      - by rewrite lookup_insert_eq, Hf, Hempty. }
    split; [by left |].
    intros [Hk | (ad & -> & Hin)%list_elem_of_fmap]; [done | by apply Hknown].
  - subst w'. unfold persistedSeenSet at 1. cbn [afterWrite files].
    rewrite lookup_insert_ne by apply pushFlag_ne_filePath.
    rewrite lookup_insert_eq, Hroundtrip. cbn [default]. unfold id.
    rewrite (elem_of_foldl_Set_add imageUrl (ad :: rest)), elem_of_Set_new, Hnew.
    split; intros [Hk | Hk]; try by left.
    + right. apply list_elem_of_fmap in Hk as (a & -> & Ha).
      apply list_elem_of_filter in Ha as [_ Ha]. by apply list_elem_of_fmap_2.
    + destruct (decide (k ∈ persistedSeenSet JSON_parse topic w)) as [| Hn]; [by left |].
      right. apply list_elem_of_fmap in Hk as (a & -> & Ha).
      apply list_elem_of_fmap_2. by apply list_elem_of_filter.
Qed.

(** X12: on the first run of a topic (no state file), when the system
    accepts the writes, every input ad is new; the run makes the data
    directory and an empty state file, and when there are ads it then writes
    their keys, each once, and the push flag. *)
Theorem first_run_creates_state ads topic w :
  files w !! filePathOf topic = None →
  diskAccepts w →
  ∃ w', checkForNewItems JSON_parse JSON_stringify ads topic w = (inr ads, w')
    ∧ trace w'
      = trace w ++ [EvMkdir "data"; EvWrite (filePathOf topic) "[]"]
        ++ match ads with
           | [] => []
           | _ => [EvWrite (filePathOf topic) (JSON_stringify (Set_new (imageUrl <$> ads)));
                   EvWrite pushFlag EmptyString]
           end
    ∧ files w' !! filePathOf topic
      = Some match ads with
             | [] => "[]"
             | _ => JSON_stringify (Set_new (imageUrl <$> ads))
             end.
Proof.
  intros Hfile Hok.
  assert (persistedSeenSet JSON_parse topic w = []) as Hseen
    by (unfold persistedSeenSet; by rewrite Hfile).
  destruct (checkForNewItems_accepted JSON_parse JSON_stringify ads topic w Hok)
    as (newItems & w' & Hrun & _).
  destruct (checkForNewItems_inr JSON_parse JSON_stringify ads topic w newItems w' Hrun)
    as (wl & Hload & Hnew & Hw').
  rewrite Hseen, filter_not_in_nil in Hnew. subst newItems.
  apply loadSavedAds_inr in Hload
    as [_ [(d & arr & Hf & _) | [(d & Hf & _) | (_ & _ & ->)]]]; [congruence | congruence |].
  exists w'. split; [exact Hrun |].
  destruct ads as [| ad ads']; subst w'; cbn [afterWrite afterMkdir emit popFault trace files].
  - split; [by rewrite <- app_assoc | apply lookup_insert_eq].
  - rewrite Hseen. change (Set_new []) with (@nil string).
    rewrite (foldl_Set_add_fmap imageUrl (ad :: ads')). split.
    + by rewrite <- !app_assoc.
    + rewrite lookup_insert_ne by apply pushFlag_ne_filePath. apply lookup_insert_eq.
Qed.

(** X13: a run writes the push flag exactly when it returns new items; the
    flag file is then there, empty. A run that fails before has not written
    it. *)
Theorem push_flag_iff_new_items ads topic w :
  ∃ evs,
    trace (checkForNewItems JSON_parse JSON_stringify ads topic w).2 = trace w ++ evs
    ∧ (EvWrite pushFlag EmptyString ∈ evs
       ↔ ∃ newItems w',
           checkForNewItems JSON_parse JSON_stringify ads topic w = (inr newItems, w')
           ∧ newItems ≠ [])
    ∧ ∀ newItems w',
        checkForNewItems JSON_parse JSON_stringify ads topic w = (inr newItems, w') →
        newItems ≠ [] → files w' !! pushFlag = Some EmptyString.
Proof.
  destruct (checkForNewItems_trace JSON_parse JSON_stringify ads topic w)
    as (pre & post & Htr & Hpre & Hpost & _).
  exists (pre ++ post). split; [exact Htr |].
  assert (EvWrite pushFlag EmptyString ∉ pre) as Hnotpre.
  { intros Hin.
    destruct Hpre as [-> | [-> | [[-> _] | [data ->]]]];
      repeat (apply elem_of_cons in Hin as [Hin | Hin];
              [first [discriminate Hin
                     | injection Hin as Hp _; by destruct (pushFlag_ne_backupPath topic)] |]);
      by apply elem_of_nil in Hin. }
  destruct Hpost as [[-> Hnone] | [(-> & _ & Hfail) | (-> & Hne & w' & Hrun & Hflag)]].
  - split.
    + rewrite app_nil_r. split; [done |]. intros (newItems & w' & Hrun & Hne).
      by destruct Hne, (Hnone newItems w' Hrun).
    + intros newItems w' Hrun Hne. by destruct Hne, (Hnone newItems w' Hrun).
  - split.
    + split.
      * intros [Hin | Hin]%elem_of_app; [done |].
        apply list_elem_of_singleton in Hin. injection Hin as Hp _.
        by destruct (pushFlag_ne_filePath topic).
      * intros (newItems & w' & Hrun & _). by destruct (Hfail newItems w').
    + intros newItems w' Hrun. by destruct (Hfail newItems w').
  - split.
    + split; [by eauto |]. intros _. rewrite elem_of_app. right. right. left.
    + intros newItems' w'' Hrun' _. rewrite Hrun in Hrun'. by injection Hrun' as _ <-.
Qed.

(** X14: whatever its outcome, a run of the change detector asks for no
    other change of the disk than writes of the topic's state file, of its
    backup and of the push flag and the making of the data directory; it
    neither reads the clock nor sends a request. *)
Theorem checkForNewItems_touches_only_its_files ads topic w :
  ∃ evs,
    trace (checkForNewItems JSON_parse JSON_stringify ads topic w).2 = trace w ++ evs
    ∧ Forall (λ e, e = EvMkdir "data"
                   ∨ ∃ path data, e = EvWrite path data
                       ∧ path ∈ [filePathOf topic; backupPathOf topic; pushFlag]) evs
    ∧ requests (checkForNewItems JSON_parse JSON_stringify ads topic w).2 = requests w
    ∧ clockReads (checkForNewItems JSON_parse JSON_stringify ads topic w).2 = clockReads w.
Proof.
  destruct (checkForNewItems_trace JSON_parse JSON_stringify ads topic w)
    as (pre & post & Htr & Hpre & Hpost & Hreq & Hck).
  exists (pre ++ post). split_and!; [done | | done | done].
  apply Forall_app. split.
  - destruct Hpre as [-> | [-> | [[-> _] | [data ->]]]];
      repeat (apply Forall_cons; split); try apply Forall_nil_2;
      first [by left | right; eexists _, _; (split; [done | set_solver])].
  - destruct Hpost as [[-> _] | [(-> & _) | (-> & _)]];
      repeat (apply Forall_cons; split); try apply Forall_nil_2;
      right; eexists _, _; (split; [done | set_solver]).
Qed.

(** X15: when the state file parses and holds the key of every input ad,
    the run reports nothing and changes nothing at all. *)
Theorem nothing_new_leaves_world_alone ads topic w data arr :
  files w !! filePathOf topic = Some data →
  JSON_parse data = Some arr →
  (∀ ad, ad ∈ ads → imageUrl ad ∈ arr) →
  checkForNewItems JSON_parse JSON_stringify ads topic w = (inr [], w).
Proof. apply checkForNewItems_all_known. Qed.

(** X16: for a codec that reads back what it writes, the seen-set on disk
    after a run that returns is the seen-set before it together with the
    keys of all input ads: nothing is forgotten, nothing else is added. *)
Theorem seen_set_after_run ads topic w newItems w' :
  (∀ arr, JSON_parse (JSON_stringify arr) = Some arr) →
  JSON_parse "[]" = Some [] →
  checkForNewItems JSON_parse JSON_stringify ads topic w = (inr newItems, w') →
  (list_to_set (persistedSeenSet JSON_parse topic w') : gset string)
  = list_to_set (persistedSeenSet JSON_parse topic w) ∪ list_to_set (imageUrl <$> ads).
Proof.
  intros Hroundtrip Hempty Hrun. apply set_eq. intros k.
  rewrite elem_of_union, !elem_of_list_to_set.
  by apply (seen_after_run ads topic w newItems w').
Qed.

(** X17: runs compose: when two runs on the same topic return, the later
    one reports exactly the ads whose key was neither in the seen-set
    before the earlier run nor among the earlier run's input. An ad without
    image is therefore never reported once any ad without image has been
    seen. *)
Theorem later_run_reports_only_unknown_keys ads1 ads2 topic w new1 w1 new2 w2 :
  (∀ arr, JSON_parse (JSON_stringify arr) = Some arr) →
  JSON_parse "[]" = Some [] →
  checkForNewItems JSON_parse JSON_stringify ads1 topic w = (inr new1, w1) →
  checkForNewItems JSON_parse JSON_stringify ads2 topic w1 = (inr new2, w2) →
  new2 = filter (λ ad, (imageUrl ad ∉ persistedSeenSet JSON_parse topic w)
                       ∧ (imageUrl ad ∉ imageUrl <$> ads1)) ads2.
Proof.
  intros Hroundtrip Hempty Hrun1 Hrun2.
  destruct (checkForNewItems_inr JSON_parse JSON_stringify ads2 topic w1 new2 w2 Hrun2)
    as (_ & _ & -> & _).
  apply list_filter_iff. intros ad.
  rewrite (seen_after_run ads1 topic w new1 w1 _ Hroundtrip Hempty Hrun1).
  tauto.
Qed.

End DetectorExtras.

Lemma first_run_creates_state_witness :
  ∃ w', checkForNewItems Json.parse Json.stringify [adA; adB] sampleTopic emptyWorld
        = (inr [adA; adB], w')
    ∧ trace w'
      = [] ++ [EvMkdir "data"; EvWrite (filePathOf sampleTopic) "[]"]
        ++ [EvWrite (filePathOf sampleTopic) (Json.stringify ["imgA"; "imgB"]);
            EvWrite pushFlag EmptyString]
    ∧ files w' !! filePathOf sampleTopic = Some (Json.stringify ["imgA"; "imgB"]).
Proof.
  apply (first_run_creates_state Json.parse Json.stringify [adA; adB] sampleTopic emptyWorld
           eq_refl).
  by apply diskAccepts_no_faults.
Defined.

Lemma nothing_new_leaves_world_alone_witness :
  checkForNewItems Json.parse Json.stringify [adA; adA] sampleTopic seenWorld
  = (inr [], seenWorld).
Proof.
  apply (nothing_new_leaves_world_alone Json.parse Json.stringify [adA; adA] sampleTopic
           seenWorld (Json.stringify ["imgA"]) ["imgA"]).
  - reflexivity.
  - reflexivity.
  - intros ad Hin. apply elem_of_cons in Hin as [-> | Hin]; [by left |].
    apply list_elem_of_singleton in Hin as ->. by left.
Defined.

Lemma seen_set_after_run_witness :
  (list_to_set
     (persistedSeenSet Json.parse sampleTopic
        (checkForNewItems Json.parse Json.stringify [adB; adNoImage1] sampleTopic seenWorld).2)
   : gset string)
  = list_to_set (persistedSeenSet Json.parse sampleTopic seenWorld)
    ∪ list_to_set (imageUrl <$> [adB; adNoImage1]).
Proof.
  apply (seen_set_after_run Json.parse Json.stringify [adB; adNoImage1] sampleTopic seenWorld
           [adB; adNoImage1]
           (checkForNewItems Json.parse Json.stringify [adB; adNoImage1] sampleTopic seenWorld).2
           JsonFacts.parse_stringify eq_refl).
  reflexivity.
Defined.

Lemma later_run_reports_only_unknown_keys_witness :
  ∃ w1 w2,
    checkForNewItems Json.parse Json.stringify [adNoImage1] sampleTopic emptyWorld
    = (inr [adNoImage1], w1)
    ∧ checkForNewItems Json.parse Json.stringify [adNoImage2; adB] sampleTopic w1
      = (inr [adB], w2).
Proof.
  exists (checkForNewItems Json.parse Json.stringify [adNoImage1] sampleTopic emptyWorld).2.
  exists (checkForNewItems Json.parse Json.stringify [adNoImage2; adB] sampleTopic
            (checkForNewItems Json.parse Json.stringify [adNoImage1] sampleTopic emptyWorld).2).2.
  split; [reflexivity |].
  rewrite (later_run_reports_only_unknown_keys Json.parse Json.stringify [adNoImage1]
             [adNoImage2; adB] sampleTopic emptyWorld [adNoImage1] _ [adB] _
             JsonFacts.parse_stringify eq_refl eq_refl eq_refl) at 1.
  reflexivity.
Defined.
(** ** Notifier *)

(** One send: one request, and the answer decides the outcome. *)
Lemma notify_item_run env chat token item w :
  (if truthy (imageUrl item)
   then sendTelegramPhotoMessage env chat (imageUrl item) (itemMessage item) token
   else sendTelegramMessage env chat (itemMessage item) token) w
  = (match sendFailure (truthy (imageUrl item)) (net env (requests w)) with
     | Some e => inl e
     | None => inr tt
     end,
     {| files := files w; clockReads := clockReads w; requests := S (requests w);
        trace := trace w ++ [notificationOf chat token item];
        diskFaults := diskFaults w |}).
Proof.
  unfold notificationOf.
  destruct (truthy (imageUrl item));
    unfold sendTelegramPhotoMessage, sendTelegramMessage, tryCatch, bind, http, sendFailure;
    by destruct (net env (requests w)) as [m | [] st stt body].
Qed.

(** While the sink accepts, the loop moves on item by item. *)
Lemma sendNewItems_accepted_prefix env chat token pre rest w :
  (∀ j, (j < length pre)%nat →
        ∃ status statusText body, net env (requests w + j) = Response true status statusText body) →
  sendNewItems env chat token (pre ++ rest) w
  = sendNewItems env chat token rest
      {| files := files w; clockReads := clockReads w;
         requests := requests w + length pre;
         trace := trace w ++ map (notificationOf chat token) pre;
         diskFaults := diskFaults w |}.
Proof.
  revert w. induction pre as [| item pre IH]; intros w Hok.
  { cbn. rewrite Nat.add_0_r, app_nil_r. by destruct w. }
  cbn [app sendNewItems]. unfold bind at 1. rewrite notify_item_run.
  destruct (Hok 0%nat) as (st & stt & body & Hnet); [cbn; lia |].
  rewrite Nat.add_0_r in Hnet. rewrite Hnet. cbn [sendFailure].
  rewrite IH.
  - cbn [files clockReads requests trace diskFaults length map]. do 2 f_equal; [lia |].
    by rewrite <- app_assoc.
  - intros j Hj. cbn [requests]. destruct (Hok (S j)) as (st' & stt' & body' & Hnet'); [cbn; lia |].
    replace (S (requests w) + j)%nat with (requests w + S j)%nat by lia. eauto.
Qed.

Lemma sendNewItems_files env chat token newItems w :
  files (sendNewItems env chat token newItems w).2 = files w.
Proof.
  revert w. induction newItems as [| item rest IH]; intros w; [done |].
  cbn [sendNewItems]. unfold bind at 1. rewrite notify_item_run.
  destruct (sendFailure _ _); [done |]. by rewrite IH.
Qed.

(** X19: a Telegram send is one request whatever the answer, with no
    retry: a network error is rethrown as it is, an answer that is not ok
    becomes [Failed to send message: <statusText>] (or [photo message] for
    a photo), and nothing but the request is done. *)
Theorem telegram_send_is_one_request env chat text photoUrl caption token w :
  sendTelegramMessage env chat text token w
  = (match net env (requests w) with
     | NetworkError message => inl message
     | Response true _ _ _ => inr tt
     | Response false _ statusText _ => inl ("Failed to send message: " +:+ statusText)
     end,
     {| files := files w; clockReads := clockReads w; requests := S (requests w);
        trace := trace w ++ [EvPost ("https://api.telegram.org/bot" +:+ token +:+ "/sendMessage")
                               (TextPayload chat text)];
        diskFaults := diskFaults w |})
  ∧ sendTelegramPhotoMessage env chat photoUrl caption token w
    = (match net env (requests w) with
       | NetworkError message => inl message
       | Response true _ _ _ => inr tt
       | Response false _ statusText _ =>
           inl ("Failed to send photo message: " +:+ statusText)
       end,
       {| files := files w; clockReads := clockReads w; requests := S (requests w);
          trace := trace w ++ [EvPost ("https://api.telegram.org/bot" +:+ token +:+ "/sendPhoto")
                                 (PhotoPayload chat photoUrl caption)];
          diskFaults := diskFaults w |}).
Proof.
  unfold sendTelegramPhotoMessage, sendTelegramMessage, tryCatch, bind, http.
  by destruct (net env (requests w)) as [m | [] st stt body].
Qed.

(** X20: the loop over the new items stops at the first send that fails:
    the items before it and the item itself have been sent, the items
    after it are never sent, and the error of the send is thrown. *)
Theorem sendNewItems_stops_at_first_failure env chat token pre item post w e :
  (∀ j, (j < length pre)%nat →
        ∃ status statusText body, net env (requests w + j) = Response true status statusText body) →
  sendFailure (truthy (imageUrl item)) (net env (requests w + length pre)) = Some e →
  ∃ w', sendNewItems env chat token (pre ++ item :: post) w = (inl e, w')
    ∧ trace w' = trace w ++ map (notificationOf chat token) (pre ++ [item])
    ∧ requests w' = (requests w + length pre + 1)%nat
    ∧ files w' = files w.
Proof.
  intros Hok Hfail.
  rewrite (sendNewItems_accepted_prefix env chat token pre (item :: post) w Hok).
  cbn [sendNewItems]. unfold bind at 1. rewrite notify_item_run.
  cbn [requests]. rewrite Hfail.
  eexists. split; [reflexivity |]. cbn [trace requests files].
  split_and!; [| lia | done]. by rewrite map_app, <- app_assoc.
Qed.

Lemma sendNewItems_stops_at_first_failure_witness :
  ∃ w', sendNewItems (envSinkFailsAt 1) "CHAT" "TOKEN" ([adA] ++ adNoImage1 :: [adB]) emptyWorld
        = (inl "Failed to send message: Too Many Requests", w')
    ∧ trace w' = [] ++ map (notificationOf "CHAT" "TOKEN") ([adA] ++ [adNoImage1])
    ∧ requests w' = (0 + 1 + 1)%nat
    ∧ files w' = ∅.
Proof.
  apply (sendNewItems_stops_at_first_failure (envSinkFailsAt 1) "CHAT" "TOKEN"
           [adA] adNoImage1 [adB] emptyWorld).
  - intros j Hj. cbn in Hj. assert (j = 0%nat) as -> by lia. by eexists _, _, _.
  - reflexivity.
Defined.

(** ** Orchestrator *)

Section Orchestrator.

Context (cheerio_load : string → Document).
Context (JSON_parse : string → option (list string)).
Context (JSON_stringify : list string → string).

(** X21: the new keys are on disk before the first notification goes out:
    whatever happens to the sends, the files after the stages are the files
    the change detector left. A notification that fails is therefore not
    repeated by a later run. *)
Theorem state_is_persisted_before_notifying env chat token topic url w adDetails w1 :
  scrapeItemsAndExtractAdDetails cheerio_load env url w = (inr adDetails, w1) →
  files (scrapeStages cheerio_load JSON_parse JSON_stringify env chat token topic url w).2
  = files (checkForNewItems JSON_parse JSON_stringify adDetails topic w1).2
  ∧ persistedSeenSet JSON_parse topic
      (scrapeStages cheerio_load JSON_parse JSON_stringify env chat token topic url w).2
    = persistedSeenSet JSON_parse topic
        (checkForNewItems JSON_parse JSON_stringify adDetails topic w1).2.
Proof.
  intros Hscrape.
  assert (files (scrapeStages cheerio_load JSON_parse JSON_stringify env chat token topic url w).2
          = files (checkForNewItems JSON_parse JSON_stringify adDetails topic w1).2) as Hfiles.
  { unfold scrapeStages, bind. rewrite Hscrape.
    destruct (checkForNewItems JSON_parse JSON_stringify adDetails topic w1)
      as [[e | newItems] w2]; [done |]. cbn [snd].
    destruct (0 <? length _)%nat; [apply sendNewItems_files | done]. }
  split; [exact Hfiles |]. unfold persistedSeenSet. by rewrite Hfiles.
Qed.

(** X22: without an API token or a chat id (unset or empty, in the
    environment and in the configuration) [scrape] throws at once: no
    request is sent, no file is touched. *)
Theorem scrape_missing_credentials config process_env env topic url w :
  default EmptyString (js_or_else (API_TOKEN process_env) (telegramApiToken config)) = EmptyString
  ∨ default EmptyString (js_or_else (CHAT_ID process_env) (chatId config)) = EmptyString →
  scrape cheerio_load JSON_parse JSON_stringify config process_env env topic url w
  = (inl "Missing API_TOKEN or CHAT_ID", w).
Proof.
  unfold scrape.
  destruct (js_or_else (API_TOKEN process_env) (telegramApiToken config)) as [[| c t] |];
    destruct (js_or_else (CHAT_ID process_env) (chatId config)) as [[| c' t'] |];
    cbn; intros [H | H]; done.
Qed.

(** X23: a non-empty environment variable wins over the configuration
    file: with [API_TOKEN] and [CHAT_ID] set, the configured values play no
    part. *)
Theorem scrape_env_overrides_config config config' process_env env topic url w token chat :
  API_TOKEN process_env = Some token → truthy token = true →
  CHAT_ID process_env = Some chat → truthy chat = true →
  scrape cheerio_load JSON_parse JSON_stringify config process_env env topic url w
  = scrape cheerio_load JSON_parse JSON_stringify config' process_env env topic url w.
Proof.
  intros Ht Htt Hc Hct. unfold scrape, js_or_else. by rewrite Ht, Htt, Hc, Hct.
Qed.

(** X24: a failure that could be reported is swallowed: when the stages
    fail and the sink accepts the failure message, [scrape] ends normally,
    so its caller never sees the failure. *)
Theorem scrape_swallows_reported_failure config process_env env topic url w token chat e w1
    status statusText body :
  js_or_else (API_TOKEN process_env) (telegramApiToken config) = Some token →
  js_or_else (CHAT_ID process_env) (chatId config) = Some chat →
  truthy token = true → truthy chat = true →
  scrapeStages cheerio_load JSON_parse JSON_stringify env chat token topic url w = (inl e, w1) →
  net env (requests w1) = Response true status statusText body →
  (scrape cheerio_load JSON_parse JSON_stringify config process_env env topic url w).1 = inr tt.
Proof.
  intros Htoken Hchat Ht Hc Hfail Hnet.
  unfold scrape. rewrite Htoken, Hchat, Ht, Hc. cbn [andb].
  unfold tryCatch at 1. rewrite Hfail.
  unfold sendTelegramMessage, tryCatch, bind, http. by rewrite Hnet.
Qed.

(** X25: when the stages fail and the failure message cannot be sent
    either, [scrape] throws the error of that send; the error of the stages
    is not what the caller gets. *)
Theorem scrape_throws_when_report_fails config process_env env topic url w token chat e w1 e' :
  js_or_else (API_TOKEN process_env) (telegramApiToken config) = Some token →
  js_or_else (CHAT_ID process_env) (chatId config) = Some chat →
  truthy token = true → truthy chat = true →
  scrapeStages cheerio_load JSON_parse JSON_stringify env chat token topic url w = (inl e, w1) →
  sendFailure false (net env (requests w1)) = Some e' →
  (scrape cheerio_load JSON_parse JSON_stringify config process_env env topic url w).1 = inl e'.
Proof.
  intros Htoken Hchat Ht Hc Hfail Hnet.
  unfold scrape. rewrite Htoken, Hchat, Ht, Hc. cbn [andb].
  unfold tryCatch at 1. rewrite Hfail.
  unfold sendTelegramMessage, tryCatch, bind, http.
  destruct (net env (requests w1)) as [m | [] st stt body]; cbn in Hnet; by simplify_eq.
Qed.

(** X26: a scrape that finds only known ads is silent: when the page is
    fetched and extracted and the key of every ad is in the seen-set,
    [scrape] ends normally in the world the fetch left: no notification, no
    write, no push flag. *)
Theorem scrape_nothing_new_is_silent config process_env env topic url w token chat adDetails w1 :
  js_or_else (API_TOKEN process_env) (telegramApiToken config) = Some token →
  js_or_else (CHAT_ID process_env) (chatId config) = Some chat →
  truthy token = true → truthy chat = true →
  scrapeItemsAndExtractAdDetails cheerio_load env url w = (inr adDetails, w1) →
  (∀ ad, ad ∈ adDetails → imageUrl ad ∈ persistedSeenSet JSON_parse topic w1) →
  scrape cheerio_load JSON_parse JSON_stringify config process_env env topic url w = (inr tt, w1).
Proof.
  intros Htoken Hchat Ht Hc Hscrape Hknown.
  assert (adDetails ≠ []) as Hne.
  { revert Hscrape. unfold scrapeItemsAndExtractAdDetails, bind.
    destruct (getYad2Response _ _ _ _ _) as [[e | html] w']; [done |].
    destruct (extractAdDetails (cheerio_load html)) as [e | ads] eqn:Hx; [done |].
    intros [= <- <-]. apply extractAdDetails_inr in Hx as (_ & Hitems & ->).
    by destruct (select _ sel_item). }
  assert (checkForNewItems JSON_parse JSON_stringify adDetails topic w1 = (inr [], w1)) as Hrun.
  { destruct adDetails as [| ad rest] eqn:Hads; [done |]. rewrite <- Hads in *.
    assert (imageUrl ad ∈ persistedSeenSet JSON_parse topic w1) as Hfirst
      by (apply Hknown; rewrite Hads; left).
    unfold persistedSeenSet in Hknown, Hfirst.
    destruct (files w1 !! filePathOf topic) as [data |] eqn:Hfile;
      [| by apply elem_of_nil in Hfirst].
    destruct (JSON_parse data) as [arr |] eqn:Hparse; [| by apply elem_of_nil in Hfirst].
    by apply (checkForNewItems_all_known JSON_parse JSON_stringify adDetails topic w1 data arr). }
  unfold scrape. rewrite Htoken, Hchat, Ht, Hc. cbn [andb].
  unfold tryCatch, scrapeStages, bind. by rewrite Hscrape, Hrun.
Qed.

End Orchestrator.

Lemma state_is_persisted_before_notifying_witness :
  (scrapeStages (λ _, listingPage) Json.parse Json.stringify (envSinkFailsAt 1) "CHAT" "TOKEN"
     sampleTopic listingUrl emptyWorld).1
  = inl "Failed to send photo message: Too Many Requests"
  ∧ persistedSeenSet Json.parse sampleTopic
      (scrapeStages (λ _, listingPage) Json.parse Json.stringify (envSinkFailsAt 1) "CHAT" "TOKEN"
         sampleTopic listingUrl emptyWorld).2
    = ["imgB"; EmptyString].
Proof.
  split; [reflexivity |].
  destruct (state_is_persisted_before_notifying (λ _, listingPage) Json.parse Json.stringify
              (envSinkFailsAt 1) "CHAT" "TOKEN" sampleTopic listingUrl emptyWorld
              (map extractAd [itemFull; itemBare])
              (scrapeItemsAndExtractAdDetails (λ _, listingPage) (envSinkFailsAt 1) listingUrl
                 emptyWorld).2 eq_refl) as [_ Hseen].
  rewrite Hseen. reflexivity.
Defined.

Lemma scrape_missing_credentials_witness :
  scrape (λ _, listingPage) Json.parse Json.stringify configWithoutToken sampleProcessEnv
    (envUp "<html>") sampleTopic listingUrl emptyWorld
  = (inl "Missing API_TOKEN or CHAT_ID", emptyWorld).
Proof.
  apply (scrape_missing_credentials (λ _, listingPage) Json.parse Json.stringify
           configWithoutToken sampleProcessEnv (envUp "<html>") sampleTopic listingUrl emptyWorld).
  left. reflexivity.
Defined.

Lemma scrape_env_overrides_config_witness :
  scrape (λ _, listingPage) Json.parse Json.stringify sampleConfig processEnvWithSecrets
    (envUp "<html>") sampleTopic listingUrl emptyWorld
  = scrape (λ _, listingPage) Json.parse Json.stringify configWithoutToken processEnvWithSecrets
      (envUp "<html>") sampleTopic listingUrl emptyWorld.
Proof.
  apply (scrape_env_overrides_config (λ _, listingPage) Json.parse Json.stringify sampleConfig
           configWithoutToken processEnvWithSecrets (envUp "<html>") sampleTopic listingUrl
           emptyWorld "ENVTOKEN" "ENVCHAT"); reflexivity.
Defined.

Lemma scrape_swallows_reported_failure_witness :
  (scrape (λ _, botPage) Json.parse Json.stringify sampleConfig sampleProcessEnv
     (envUp "<html>") sampleTopic listingUrl emptyWorld).1 = inr tt.
Proof.
  apply (scrape_swallows_reported_failure (λ _, botPage) Json.parse Json.stringify sampleConfig
           sampleProcessEnv (envUp "<html>") sampleTopic listingUrl emptyWorld "TOKEN" "CHAT"
           botDetectedMessage
           (scrapeStages (λ _, botPage) Json.parse Json.stringify (envUp "<html>") "CHAT" "TOKEN"
              sampleTopic listingUrl emptyWorld).2 200 "OK" "<html>"); reflexivity.
Defined.

Lemma scrape_throws_when_report_fails_witness :
  (scrape (λ _, botPage) Json.parse Json.stringify sampleConfig sampleProcessEnv
     (envSinkFailsAt 1) sampleTopic listingUrl emptyWorld).1
  = inl "Failed to send message: Too Many Requests".
Proof.
  apply (scrape_throws_when_report_fails (λ _, botPage) Json.parse Json.stringify sampleConfig
           sampleProcessEnv (envSinkFailsAt 1) sampleTopic listingUrl emptyWorld "TOKEN" "CHAT"
           botDetectedMessage
           (scrapeStages (λ _, botPage) Json.parse Json.stringify (envSinkFailsAt 1) "CHAT"
              "TOKEN" sampleTopic listingUrl emptyWorld).2); reflexivity.
Defined.

Lemma scrape_nothing_new_is_silent_witness :
  scrape (λ _, listingPage) Json.parse Json.stringify sampleConfig sampleProcessEnv
    (envUp "<html>") sampleTopic listingUrl knownWorld
  = (inr tt,
     (scrapeItemsAndExtractAdDetails (λ _, listingPage) (envUp "<html>") listingUrl
        knownWorld).2).
Proof.
  apply (scrape_nothing_new_is_silent (λ _, listingPage) Json.parse Json.stringify sampleConfig
           sampleProcessEnv (envUp "<html>") sampleTopic listingUrl knownWorld "TOKEN" "CHAT"
           (map extractAd [itemFull; itemBare])); try reflexivity.
  intros ad Hin. apply elem_of_cons in Hin as [-> | Hin]; [by left |].
  apply list_elem_of_singleton in Hin as ->. right. by left.
Defined.
